(** * addfunctionstoindex: the concurrent fingerprint-and-index pipeline

    A shallow embedding of [tools/addfunctionstoindex.cpp].  The body of the
    job lambda pushed to the thread pool is cut into its atomic actions on the
    shared objects (the atomic counter, the mutex, the search index, the
    standard output); a run of the pool is an interleaving of those actions,
    chosen by an explicit schedule. *)

From stdpp Require Import base list sets strings.
From Stdlib Require Import ZArith Lia.

#[local] Set Warnings "-clear-no-such-hyp".

Local Open Scope Z_scope.

(** ** External collaborators *)

(** A [Dyninst::ParseAPI::Function], seen through the calls the tool makes on
    it: [function->addr()], [ContainsSharedBasicBlocks(function)],
    [BuildFlowgraph(function, &graph)] followed by
    [graph.GetNumberOfBranchingNodes()], and the vector that
    [hasher.CalculateFunctionSimHash(&generator, n, &hashes)] leaves in
    [hashes] for a generator built from the function.

    The tool reads [hashes[0]] and [hashes[1]] without looking at the size of
    the vector.  [past_the_end k] is what the read of [hashes[k]] finds in the
    job of this function when the vector has no element [k]: the language
    does not say what it is, and it may differ from one run to the next. *)
Record Function := mkFunction {
  addr : Z;
  ContainsSharedBasicBlocks : bool;
  GetNumberOfBranchingNodes : Z;
  CalculateFunctionSimHash : Z → list Z;
  past_the_end : nat → Z
}.

(** [hashes[k]], as [std::vector::operator[]] reads it: no bounds check. *)
Definition subscript (f : Function) (hashes : list Z) (k : nat) : Z :=
  match hashes !! k with
  | Some v => v
  | None => past_the_end f k
  end.

Record IndexEntry := mkEntry {
  entry_hash_A : Z;
  entry_hash_B : Z;
  entry_file_id : Z;
  entry_address : Z
}.

(** Modelled from the spec: [SimHashSearchIndex]
    (searchbackend/simhashsearchindex.hpp is not part of the sources).  The
    spec describes a capacity-bounded store of (fingerprint, executable-id,
    address) entries with a notion of remaining free capacity, whose insert
    reports an out-of-space condition.  [entry_bytes] is the space one insert
    takes from the index file. *)
Record SimHashSearchIndex := mkIndex {
  entries : list IndexEntry;
  free_space : Z;
  entry_bytes : Z
}.

Inductive bad_alloc := out_of_space.

Definition GetIndexFileFreeSpace (idx : SimHashSearchIndex) : Z :=
  free_space idx.

Definition AddFunction (hash_A hash_B file_id address : Z)
    (idx : SimHashSearchIndex) : bad_alloc + SimHashSearchIndex :=
  if free_space idx <? entry_bytes idx then inl out_of_space
  else inr {| entries := entries idx ++ [mkEntry hash_A hash_B file_id address];
              free_space := free_space idx - entry_bytes idx;
              entry_bytes := entry_bytes idx |}.

(** ** Standard output *)

(** One constructor per [printf] of the tool, with its arguments. *)
Inductive Msg :=
| MsgEmptyTarget
| MsgExecutableId (file_id : Z)
| MsgNoFunctions
| MsgSkipping (processed total : Z) (path : string) (file_id address branching_nodes : Z)
| MsgIndexFull (processed total : Z) (path : string) (file_id address : Z)
| MsgAdding (processed total : Z) (path : string) (file_id address branching_nodes : Z)
| MsgBadAlloc.

(** ** The job *)

(** What the lambda captures by value or by reference to an immutable. *)
Record Capture := mkCapture {
  binary_path_string : string;
  file_id : Z;
  minimum_size : Z;
  number_of_functions : Z
}.

(** The objects the jobs share: [search_index], [search_index_mutex] (with
    the job that holds it) and the [std::atomic_ulong] counter. *)
Record Shared := mkShared {
  search_index : SimHashSearchIndex;
  search_index_mutex : option nat;
  processed_functions : Z
}.

Definition with_index (idx : SimHashSearchIndex) (sh : Shared) : Shared :=
  {| search_index := idx;
     search_index_mutex := search_index_mutex sh;
     processed_functions := processed_functions sh |}.

Definition with_mutex (m : option nat) (sh : Shared) : Shared :=
  {| search_index := search_index sh;
     search_index_mutex := m;
     processed_functions := processed_functions sh |}.

Definition with_processed (n : Z) (sh : Shared) : Shared :=
  {| search_index := search_index sh;
     search_index_mutex := search_index_mutex sh;
     processed_functions := n |}.

(** How a job ends when it returns. *)
Inductive Outcome := TooSmall | IndexFull | Added | NoSpaceLeft.

(** The program points of the lambda, each named after what it does next. *)
Inductive JobState :=
| Queued                        (* pushed, not yet taken by a worker *)
| Started                       (* graph built; next the increment of processed_functions *)
| SizeCheck                     (* next [branching_nodes <= minimum_size] *)
| SpaceCheck                    (* next [GetIndexFileFreeSpace() < (1ULL << 14)] *)
| PrintFull                     (* next the "Index file full" printf, return *)
| PrintAdding                   (* next the "Adding function" printf *)
| LockGenerator                 (* next [mutex_pointer->lock()] *)
| Generator                     (* generator built under the lock; next [unlock()] *)
| Hash                          (* next [CalculateFunctionSimHash], [hashes[0]], [hashes[1]] *)
| LockIndex (hash_A hash_B : Z) (* next the [lock_guard] constructor *)
| Insert (hash_A hash_B : Z)    (* next [AddFunction] inside [try] *)
| Unlock (o : Outcome)          (* next the [lock_guard] destructor *)
| Done (o : Outcome).           (* the lambda has returned *)

(** What one atomic action did. *)
Inductive Action :=
| ActStart
| ActIncrement
| ActSizeOk
| ActFreeSpace (v : Z)
| ActPrint (m : Msg)
| ActLock
| ActUnlock
| ActHash (hash_A hash_B : Z)
| ActAddFunction (e : IndexEntry)
| ActBadAlloc.

Definition uint64_max_succ : Z := 2 ^ 64.

(** One action of job [i] on function [f].  [None]: the job cannot move (it
    waits for the mutex, or it is over).  After the hash computation the job
    goes on with what [hashes[0]] and [hashes[1]] read, whatever the size of
    the vector. *)
Definition job_step (c : Capture) (i : nat) (f : Function) (js : JobState)
    (sh : Shared) : option (Action * JobState * Shared) :=
  match js with
  | Queued => Some (ActStart, Started, sh)
  | Started =>
      Some (ActIncrement, SizeCheck,
            with_processed ((processed_functions sh + 1) mod uint64_max_succ) sh)
  | SizeCheck =>
      let branching_nodes := GetNumberOfBranchingNodes f in
      if branching_nodes <=? minimum_size c then
        Some (ActPrint (MsgSkipping (processed_functions sh) (number_of_functions c)
                          (binary_path_string c) (file_id c) (addr f) branching_nodes),
              Done TooSmall, sh)
      else Some (ActSizeOk, SpaceCheck, sh)
  | SpaceCheck =>
      let v := GetIndexFileFreeSpace (search_index sh) in
      Some (ActFreeSpace v, if v <? Z.shiftl 1 14 then PrintFull else PrintAdding, sh)
  | PrintFull =>
      Some (ActPrint (MsgIndexFull (processed_functions sh) (number_of_functions c)
                        (binary_path_string c) (file_id c) (addr f)),
            Done IndexFull, sh)
  | PrintAdding =>
      Some (ActPrint (MsgAdding (processed_functions sh) (number_of_functions c)
                        (binary_path_string c) (file_id c) (addr f)
                        (GetNumberOfBranchingNodes f)),
            LockGenerator, sh)
  | LockGenerator =>
      match search_index_mutex sh with
      | None => Some (ActLock, Generator, with_mutex (Some i) sh)
      | Some _ => None
      end
  | Generator => Some (ActUnlock, Hash, with_mutex None sh)
  | Hash =>
      let hashes := CalculateFunctionSimHash f 128 in
      let hash_A := subscript f hashes 0 in
      let hash_B := subscript f hashes 1 in
      Some (ActHash hash_A hash_B, LockIndex hash_A hash_B, sh)
  | LockIndex hash_A hash_B =>
      match search_index_mutex sh with
      | None => Some (ActLock, Insert hash_A hash_B, with_mutex (Some i) sh)
      | Some _ => None
      end
  | Insert hash_A hash_B =>
      match AddFunction hash_A hash_B (file_id c) (addr f) (search_index sh) with
      | inr idx =>
          Some (ActAddFunction (mkEntry hash_A hash_B (file_id c) (addr f)),
                Unlock Added, with_index idx sh)
      | inl out_of_space => Some (ActBadAlloc, Unlock NoSpaceLeft, sh)
      end
  | Unlock o => Some (ActUnlock, Done o, with_mutex None sh)
  | Done _ => None
  end.

(** ** The thread pool *)

(** A run of the pool: the program point of every pushed job, the shared
    objects, and the actions performed so far, each with the job that
    performed it. *)
Record Run := mkRun {
  jobs : list JobState;
  shared : Shared;
  trace : list (nat * Action)
}.

Definition is_queued (js : JobState) : bool :=
  match js with Queued => true | _ => false end.

Definition is_done (js : JobState) : bool :=
  match js with Done _ => true | _ => false end.

(** A worker is busy with a job from the moment it takes it until the lambda
    returns. *)
Definition on_worker (js : JobState) : bool :=
  negb (is_queued js) && negb (is_done js).

Definition busy (l : list JobState) : nat := length (List.filter on_worker l).

(** Modelled from the spec: [threadpool::ThreadPool] (util/threadpool.hpp is
    not part of the sources).  The spec describes a fixed-size pool of worker
    threads that pull jobs from a shared queue, with no ordering guarantee
    across jobs.  One [step] lets job [i] perform its next action: a queued
    job needs an idle worker, and a job that cannot move (it waits for the
    mutex or for a worker, or it is over) leaves the run as it is.  A job that
    [main] has not pushed yet behaves as a job that is still queued. *)
Definition step (c : Capture) (workers : nat) (fs : list Function) (i : nat)
    (r : Run) : Run :=
  match fs !! i, jobs r !! i with
  | Some f, Some js =>
      if is_queued js && negb (busy (jobs r) <? workers)%nat then r
      else match job_step c i f js (shared r) with
           | Some (a, js', sh') =>
               {| jobs := <[i := js']> (jobs r);
                  shared := sh';
                  trace := trace r ++ [(i, a)] |}
           | None => r
           end
  | _, _ => r
  end.

(** The run under a schedule: the jobs move in the order the schedule
    names them. *)
Definition exec (c : Capture) (workers : nat) (fs : list Function)
    (sched : list nat) (r : Run) : Run :=
  foldl (λ r i, step c workers fs i r) r sched.

(** The pool when the jobs have been pushed and none has started. *)
Definition start (n : nat) (idx : SimHashSearchIndex) : Run :=
  {| jobs := replicate n Queued;
     shared := {| search_index := idx;
                  search_index_mutex := None;
                  processed_functions := 0 |};
     trace := [] |}.

(** [pool.Stop(true)] returns when every job has returned. *)
Definition drained (r : Run) : bool := forallb is_done (jobs r).

(** What an action writes on the standard output. *)
Definition printed (a : nat * Action) : list Msg :=
  match a.2 with
  | ActPrint m => [m]
  | ActBadAlloc => [MsgBadAlloc]
  | _ => []
  end.

(** ** main *)

Record Flags := mkFlags {
  FLAGS_format : string;
  FLAGS_input : string;
  FLAGS_index : string;
  FLAGS_weights : string;
  FLAGS_minimum_function_size : Z;
  FLAGS_no_shared_blocks : bool
}.

(** What [main] finds outside: the executable id of a path, the index file,
    the result of [disassembly.Load()], the functions of the code object, and
    [std::thread::hardware_concurrency()]. *)
Record World := mkWorld {
  GenerateExecutableID : string → Z;
  index_file : string → SimHashSearchIndex;
  Load : string → string → bool;
  funcs : string → string → list Function;
  hardware_concurrency : nat
}.

Inductive Status :=
| Exit (code : Z)        (* [return] from main, or [exit] *)
| Waiting.               (* [pool.Stop(true)] has not returned yet *)

Record Result := mkResult {
  status : Status;
  stdout : list Msg;
  pool : option Run
}.

(** The functions for which the loop calls [pool.Push]. *)
Definition submitted (no_shared_blocks : bool) (functions : list Function)
    : list Function :=
  List.filter (λ f, negb (no_shared_blocks && ContainsSharedBasicBlocks f)) functions.

(** [main], for the schedule that the workers follow.  The result tells how
    far the process got under that schedule: it has exited with a code, or
    [pool.Stop(true)] is still waiting for jobs. *)
Definition main (flags : Flags) (w : World) (sched : list nat) : Result :=
  let mode := FLAGS_format flags in
  let binary_path_string := FLAGS_input flags in
  let minimum_size := FLAGS_minimum_function_size flags in
  if String.eqb binary_path_string "" then
    {| status := Exit (-1); stdout := [MsgEmptyTarget]; pool := None |}
  else
    let file_id := GenerateExecutableID w binary_path_string in
    let out := [MsgExecutableId file_id] in
    let search_index := index_file w (FLAGS_index flags) in
    if negb (Load w mode binary_path_string) then
      {| status := Exit 1; stdout := out; pool := None |}
    else
      let functions := funcs w mode binary_path_string in
      if (length functions =? 0)%nat then
        {| status := Exit (-1); stdout := out ++ [MsgNoFunctions]; pool := None |}
      else
        let c := {| binary_path_string := binary_path_string;
                    file_id := file_id;
                    minimum_size := minimum_size;
                    number_of_functions := Z.of_nat (length functions) |} in
        let fs := submitted (FLAGS_no_shared_blocks flags) functions in
        let r := exec c (hardware_concurrency w) fs sched
                   (start (length fs) search_index) in
        {| status := if drained r then Exit 0 else Waiting;
           stdout := out ++ concat (map printed (trace r));
           pool := Some r |}.

(** ** Observations on a run *)

(** The actions of job [i] in a trace, in order. *)
Definition events (i : nat) (tr : list (nat * Action)) : list Action :=
  omap (λ e, if decide (e.1 = i) then Some e.2 else None) tr.

(** The entries that successful [AddFunction] calls put in the index. *)
Definition added (tr : list (nat * Action)) : list IndexEntry :=
  omap (λ e, match e.2 with ActAddFunction x => Some x | _ => None end) tr.

(** Something collected from every (function, job) pair of the pool. *)
Definition gather {C} (g : Function → JobState → list C)
    (fs : list Function) (l : list JobState) : list C :=
  concat (zip_with g fs l).

(** Jobs that hold [search_index_mutex]. *)
Definition holds (js : JobState) : bool :=
  match js with
  | Generator | Insert _ _ | Unlock _ => true
  | _ => false
  end.

(** Jobs that have incremented the counter. *)
Definition counted (js : JobState) : bool :=
  match js with Queued | Started => false | _ => true end.

(** The fingerprinter returns at least two values for a request of 128. *)
Definition two_hashes (f : Function) : Prop :=
  ∃ hash_A hash_B,
    CalculateFunctionSimHash f 128 !! 0%nat = Some hash_A ∧
    CalculateFunctionSimHash f 128 !! 1%nat = Some hash_B.

(** What the job reads as [hashes[0]] and [hashes[1]]. *)
Definition reads (f : Function) (a b : Z) : Prop :=
  a = subscript f (CalculateFunctionSimHash f 128) 0 ∧
  b = subscript f (CalculateFunctionSimHash f 128) 1.

(** The entry the job builds for [f]. *)
Definition entry_of (c : Capture) (f : Function) : list IndexEntry :=
  [mkEntry (subscript f (CalculateFunctionSimHash f 128) 0)
           (subscript f (CalculateFunctionSimHash f 128) 1)
           (file_id c) (addr f)].

(** Jobs that are past a successful [AddFunction]. *)
Definition has_added (js : JobState) : bool :=
  match js with Unlock Added | Done Added => true | _ => false end.

Definition added_by (c : Capture) (f : Function) (js : JobState) : list IndexEntry :=
  if has_added js then entry_of c f else [].

(** Jobs from which a call of [AddFunction] may still come. *)
Definition may_add (c : Capture) (f : Function) (js : JobState) : bool :=
  match js with
  | Queued | Started | SizeCheck => negb (GetNumberOfBranchingNodes f <=? minimum_size c)
  | SpaceCheck | PrintAdding | LockGenerator | Generator | Hash
  | LockIndex _ _ | Insert _ _ => true
  | _ => false
  end.

Definition unit_if (b : bool) : list unit := if b then [()] else [].

Definition pending (c : Capture) (fs : list Function) (l : list JobState) : nat :=
  length (gather (λ f js, unit_if (may_add c f js)) fs l).

Definition count_counted (fs : list Function) (l : list JobState) : nat :=
  length (gather (λ _ js, unit_if (counted js)) fs l).

(** The history of a job that is at a given program point: the actions it has
    performed so far, whatever the other jobs did in between. *)
Definition h_sized : list Action := [ActStart; ActIncrement; ActSizeOk].

Definition h_checked (c : Capture) (f : Function) (v p : Z) : list Action :=
  h_sized ++
  [ActFreeSpace v;
   ActPrint (MsgAdding p (number_of_functions c) (binary_path_string c)
               (file_id c) (addr f) (GetNumberOfBranchingNodes f))].

Definition h_hashed (c : Capture) (f : Function) (v p a b : Z) : list Action :=
  h_checked c f v p ++ [ActLock; ActUnlock; ActHash a b].

(** The function is larger than the minimum size. *)
Definition passed_size (c : Capture) (f : Function) : Prop :=
  minimum_size c < GetNumberOfBranchingNodes f.

(** [hashes[0]] and [hashes[1]] are [a] and [b]. *)
Definition hashes_are (f : Function) (a b : Z) : Prop :=
  CalculateFunctionSimHash f 128 !! 0%nat = Some a ∧
  CalculateFunctionSimHash f 128 !! 1%nat = Some b.

Definition history (c : Capture) (f : Function) (js : JobState)
    (h : list Action) : Prop :=
  match js with
  | Queued => h = []
  | Started => h = [ActStart]
  | SizeCheck => h = [ActStart; ActIncrement]
  | SpaceCheck => passed_size c f ∧ h = h_sized
  | PrintFull =>
      passed_size c f ∧ ∃ v, v < Z.shiftl 1 14 ∧ h = h_sized ++ [ActFreeSpace v]
  | PrintAdding =>
      passed_size c f ∧ ∃ v, Z.shiftl 1 14 ≤ v ∧ h = h_sized ++ [ActFreeSpace v]
  | LockGenerator =>
      passed_size c f ∧ ∃ v p, Z.shiftl 1 14 ≤ v ∧ h = h_checked c f v p
  | Generator =>
      passed_size c f ∧ ∃ v p, Z.shiftl 1 14 ≤ v ∧ h = h_checked c f v p ++ [ActLock]
  | Hash =>
      passed_size c f ∧
      ∃ v p, Z.shiftl 1 14 ≤ v ∧ h = h_checked c f v p ++ [ActLock; ActUnlock]
  | LockIndex a b =>
      passed_size c f ∧ reads f a b ∧
      ∃ v p, Z.shiftl 1 14 ≤ v ∧ h = h_hashed c f v p a b
  | Insert a b =>
      passed_size c f ∧ reads f a b ∧
      ∃ v p, Z.shiftl 1 14 ≤ v ∧ h = h_hashed c f v p a b ++ [ActLock]
  | Unlock Added =>
      passed_size c f ∧
      ∃ a b v p, reads f a b ∧ Z.shiftl 1 14 ≤ v ∧
        h = h_hashed c f v p a b ++
            [ActLock; ActAddFunction (mkEntry a b (file_id c) (addr f))]
  | Unlock NoSpaceLeft =>
      passed_size c f ∧
      ∃ a b v p, reads f a b ∧ Z.shiftl 1 14 ≤ v ∧
        h = h_hashed c f v p a b ++ [ActLock; ActBadAlloc]
  | Unlock _ => False
  | Done TooSmall =>
      GetNumberOfBranchingNodes f ≤ minimum_size c ∧
      ∃ p, h = [ActStart; ActIncrement;
                ActPrint (MsgSkipping p (number_of_functions c) (binary_path_string c)
                            (file_id c) (addr f) (GetNumberOfBranchingNodes f))]
  | Done IndexFull =>
      passed_size c f ∧
      ∃ v p, v < Z.shiftl 1 14 ∧
        h = h_sized ++
            [ActFreeSpace v;
             ActPrint (MsgIndexFull p (number_of_functions c) (binary_path_string c)
                         (file_id c) (addr f))]
  | Done Added =>
      passed_size c f ∧
      ∃ a b v p, reads f a b ∧ Z.shiftl 1 14 ≤ v ∧
        h = h_hashed c f v p a b ++
            [ActLock; ActAddFunction (mkEntry a b (file_id c) (addr f)); ActUnlock]
  | Done NoSpaceLeft =>
      passed_size c f ∧
      ∃ a b v p, reads f a b ∧ Z.shiftl 1 14 ≤ v ∧
        h = h_hashed c f v p a b ++ [ActLock; ActBadAlloc; ActUnlock]
  end.

(** Every job is at a program point that agrees with what it did. *)
Definition histories (c : Capture) (fs : list Function) (r : Run) : Prop :=
  ∀ i f js, fs !! i = Some f → jobs r !! i = Some js →
    history c f js (events i (trace r)).

(** The mutex is held by exactly the job inside a critical section. *)
Definition mutex_held (r : Run) : Prop :=
  ∀ i js, jobs r !! i = Some js →
    (holds js = true ↔ search_index_mutex (shared r) = Some i).

(** What the index holds is what it held at the start plus what was added. *)
Definition index_accounts (idx : SimHashSearchIndex) (r : Run) : Prop :=
  entries (search_index (shared r)) = entries idx ++ added (trace r) ∧
  free_space (search_index (shared r)) =
    free_space idx - entry_bytes idx * Z.of_nat (length (added (trace r))) ∧
  entry_bytes (search_index (shared r)) = entry_bytes idx.

(** The counter holds the number of jobs that incremented it, as an
    unsigned 64-bit value. *)
Definition counter_counts (fs : list Function) (r : Run) : Prop :=
  processed_functions (shared r) =
    Z.of_nat (count_counted fs (jobs r)) mod uint64_max_succ.

(** Jobs that found the index full, at the check or at the insert. *)
Definition starved (js : JobState) : bool :=
  match js with
  | PrintFull | Unlock IndexFull | Unlock NoSpaceLeft
  | Done IndexFull | Done NoSpaceLeft => true
  | _ => false
  end.

(** The functions that pass the size filter. *)
Definition candidates (c : Capture) (fs : list Function) : list Function :=
  List.filter (λ f, negb (GetNumberOfBranchingNodes f <=? minimum_size c)) fs.

(** An index with room, beyond the safety margin, for every function that
    passes the size filter. *)
Definition sufficient (c : Capture) (fs : list Function)
    (idx : SimHashSearchIndex) : Prop :=
  0 ≤ entry_bytes idx ∧
  Z.shiftl 1 14 + entry_bytes idx * Z.of_nat (length (candidates c fs)) ≤ free_space idx.

(** The free space covers the margin and every insert that may still come. *)
Definition ample (c : Capture) (fs : list Function) (idx : SimHashSearchIndex)
    (r : Run) : Prop :=
  Z.shiftl 1 14 + entry_bytes idx * Z.of_nat (pending c fs (jobs r))
    ≤ free_space (search_index (shared r)) ∧
  entry_bytes (search_index (shared r)) = entry_bytes idx ∧
  Forall (λ js, starved js = false) (jobs r).

(** Jobs that have not gone past the capacity check. *)
Definition quiet (js : JobState) : bool :=
  match js with
  | Queued | Started | SizeCheck | SpaceCheck | PrintFull
  | Done TooSmall | Done IndexFull => true
  | _ => false
  end.

(** An index below the margin is left as it is, and no job goes past the
    capacity check. *)
Definition stays_full (idx : SimHashSearchIndex) (r : Run) : Prop :=
  search_index (shared r) = idx ∧ Forall (λ js, quiet js = true) (jobs r).

(** The entries added so far are those of the jobs that are past their
    insert. *)
Definition added_matches (c : Capture) (fs : list Function) (r : Run) : Prop :=
  added (trace r) ≡ₚ gather (added_by c) fs (jobs r).

(** Job [i] wrote an entry. *)
Definition written (r : Run) (i : nat) : Prop :=
  ∃ x, (i, ActAddFunction x) ∈ trace r.

(** Job [i] read a free capacity of at least the margin at its check. *)
Definition capacity_at_check (r : Run) (i : nat) : Prop :=
  ∃ v, (i, ActFreeSpace v) ∈ trace r ∧ Z.shiftl 1 14 ≤ v.

(** The actions of extraction and insertion. *)
Definition extracting (a : Action) : bool :=
  match a with
  | ActLock | ActUnlock | ActHash _ _
  | ActAddFunction _ | ActBadAlloc => true
  | _ => false
  end.

(** The entries among the actions of one job. *)
Definition entries_written (h : list Action) : list IndexEntry :=
  omap (λ a, match a with ActAddFunction x => Some x | _ => None end) h.

(** The invariant of the data model, read on a run: an entry is written for
    a submitted function exactly when it passed the size filter, the capacity
    check passed and two hashes came back. *)
Definition written_iff_checks (c : Capture) (fs : list Function) (r : Run) : Prop :=
  ∀ i f, fs !! i = Some f →
    (written r i ↔ passed_size c f ∧ capacity_at_check r i ∧ two_hashes f).

(** The schedule that runs every job in turn, from start to end. *)
Definition in_turn (n : nat) : list nat :=
  concat (map (replicate 11) (seq 0 n)).

(** ** Concrete runs *)

Module Scenario.

Definition capture : Capture :=
  {| binary_path_string := "a.exe"; file_id := 77; minimum_size := 5;
     number_of_functions := 3 |}.

Definition capture5 : Capture :=
  {| binary_path_string := "a.exe"; file_id := 77; minimum_size := 5;
     number_of_functions := 5 |}.

Definition f_small : Function := mkFunction 4096 false 2 (λ _, [11; 12]) (λ _, 0).
Definition f_shared : Function := mkFunction 8192 true 10 (λ _, [21; 22]) (λ _, 0).
Definition f_big : Function := mkFunction 12288 false 10 (λ _, [31; 32]) (λ _, 0).

Definition roomy : SimHashSearchIndex :=
  {| entries := []; free_space := 65536; entry_bytes := 1024 |}.

Definition roomier : SimHashSearchIndex :=
  {| entries := []; free_space := 1048576; entry_bytes := 2048 |}.

(** Five functions of ten branching nodes each, an index with exactly the
    margin left, and inserts of 4 KiB. *)
Definition five : list Function :=
  map (λ k, mkFunction (4096 * Z.of_nat k) false 10
              (λ _, [Z.of_nat k; Z.of_nat k + 100]) (λ _, 0))
      (seq 1 5).

Definition tight : SimHashSearchIndex :=
  {| entries := []; free_space := 16384; entry_bytes := 4096 |}.

(** Two jobs, the second always a step ahead of the first. *)
Definition alternate : list nat := concat (replicate 11 [1; 0]%nat).

(** All five jobs pass the capacity check before any of them inserts. *)
Definition racing : list nat :=
  concat (map (replicate 4) (seq 0 5)) ++ concat (map (replicate 7) (seq 0 5)).

Definition race : Run := exec capture5 8 five racing (start 5 tight).

(** The same race, stopped when the fifth job is about to insert. *)
Definition before_insert : Run :=
  exec capture5 8 five
    (concat (map (replicate 4) (seq 0 5)) ++ concat (map (replicate 7) (seq 0 4)) ++
     replicate 5 4%nat)
    (start 5 tight).

(** The first job is about to insert and holds the mutex; the second job is
    about to read the free capacity. *)
Definition overlap : Run :=
  exec capture5 8 five (replicate 9 0%nat ++ replicate 3 1%nat) (start 5 tight).

End Scenario.

(** Scenario B as the spec words it: every submitted function is reported
    as skipped because the index is full. *)
Definition all_report_full (c : Capture) (fs : list Function) (r : Run) : Prop :=
  ∀ i f, fs !! i = Some f →
    ∃ p, (i, ActPrint (MsgIndexFull p (number_of_functions c) (binary_path_string c)
                         (file_id c) (addr f))) ∈ trace r.

(** Scenario A as the spec words it: one entry, and a count of three. *)
Definition one_entry_count_three (res : Result) : Prop :=
  ∃ r, pool res = Some r ∧ length (added (trace r)) = 1%nat ∧
       processed_functions (shared r) = 3.

Module ScenarioA.

Definition flags : Flags :=
  {| FLAGS_format := "PE"; FLAGS_input := "a.exe";
     FLAGS_index := "./similarity.index"; FLAGS_weights := "weights.txt";
     FLAGS_minimum_function_size := 5; FLAGS_no_shared_blocks := true |}.

Definition world : World :=
  {| GenerateExecutableID := λ _, 77;
     index_file := λ _, Scenario.roomy;
     Load := λ _ _, true;
     funcs := λ _ _, [Scenario.f_small; Scenario.f_shared; Scenario.f_big];
     hardware_concurrency := 2 |}.

End ScenarioA.

Module ScenarioB.

(** An index file that already holds an entry and has 8 KiB left. *)
Definition prefilled : SimHashSearchIndex :=
  {| entries := [mkEntry 1 2 3 4]; free_space := 8192; entry_bytes := 1024 |}.

Definition run : Run :=
  exec Scenario.capture 2 [Scenario.f_small; Scenario.f_big]
    (in_turn 2) (start 2 prefilled).

End ScenarioB.

(** What holds of every run of the pool from its start. *)
Definition sound (c : Capture) (fs : list Function) (idx : SimHashSearchIndex)
    (r : Run) : Prop :=
  histories c fs r ∧ mutex_held r ∧ index_accounts idx r ∧ counter_counts fs r ∧
  added_matches c fs r ∧ length (jobs r) = length fs ∧
  (∀ i a, (i, a) ∈ trace r → ∃ f, fs !! i = Some f).

(** The capture list of the lambda, the functions pushed and the run of the
    pool, as [main] builds them. *)
Definition captured (flags : Flags) (w : World) : Capture :=
  {| binary_path_string := FLAGS_input flags;
     file_id := GenerateExecutableID w (FLAGS_input flags);
     minimum_size := FLAGS_minimum_function_size flags;
     number_of_functions :=
       Z.of_nat (length (funcs w (FLAGS_format flags) (FLAGS_input flags))) |}.

Definition pushed (flags : Flags) (w : World) : list Function :=
  submitted (FLAGS_no_shared_blocks flags)
    (funcs w (FLAGS_format flags) (FLAGS_input flags)).

Definition pool_run (flags : Flags) (w : World) (sched : list nat) : Run :=
  exec (captured flags w) (hardware_concurrency w) (pushed flags w) sched
    (start (length (pushed flags w)) (index_file w (FLAGS_index flags))).

(** The exclusion that the data model asks for: while a job is about to
    insert, holding the mutex, no other job can read the free capacity. *)
Definition capacity_read_excluded (c : Capture) (workers : nat)
    (fs : list Function) (r : Run) : Prop :=
  ∀ i j a b, i ≠ j →
    jobs r !! j = Some (Insert a b) → jobs r !! i = Some SpaceCheck →
    step c workers fs i r = r.

(** Two functions that the job cannot tell apart: same address, same flow
    graph, and the same two values at the head of what the fingerprinter
    returns for a request of 128. *)
Definition same_for_job (f f' : Function) : Prop :=
  addr f = addr f' ∧
  ContainsSharedBasicBlocks f = ContainsSharedBasicBlocks f' ∧
  GetNumberOfBranchingNodes f = GetNumberOfBranchingNodes f' ∧
  ∃ a b, hashes_are f a b ∧ hashes_are f' a b.

(** Two descriptions of the same function of the same binary: they differ
    at most in what a read past the end of [hashes] finds. *)
Definition same_binary (f f' : Function) : Prop :=
  addr f = addr f' ∧
  ContainsSharedBasicBlocks f = ContainsSharedBasicBlocks f' ∧
  GetNumberOfBranchingNodes f = GetNumberOfBranchingNodes f' ∧
  CalculateFunctionSimHash f = CalculateFunctionSimHash f'.

(** Two runs end with the same set of entries. *)
Definition same_entries (r1 r2 : Run) : Prop :=
  ∀ x, x ∈ entries (search_index (shared r1)) ↔ x ∈ entries (search_index (shared r2)).

Module ScenarioC.

(** The fingerprinter returns a single value for this function; the read of
    [hashes[1]] finds [g]. *)
Definition f_short (g : Z) : Function :=
  mkFunction 20480 false 10 (λ _, [51]) (λ _, g).

Definition flags : Flags :=
  {| FLAGS_format := "PE"; FLAGS_input := "a.exe";
     FLAGS_index := "./similarity.index"; FLAGS_weights := "weights.txt";
     FLAGS_minimum_function_size := 5; FLAGS_no_shared_blocks := false |}.

Definition world (g : Z) : World :=
  {| GenerateExecutableID := λ _, 77;
     index_file := λ _, Scenario.roomy;
     Load := λ _ _, true;
     funcs := λ _ _, [f_short g; Scenario.f_big];
     hardware_concurrency := 2 |}.

End ScenarioC.

Module ScenarioD.

(** The same function as [Scenario.f_big] for the job, with a fingerprinter
    that returns four values for a request of 128 and nothing otherwise. *)
Definition f_long : Function :=
  mkFunction 12288 false 10 (λ n, if n =? 128 then [31; 32; 33; 34] else []) (λ _, 9).

End ScenarioD.

(** [n] actions of one job in a row, as far as it can move. *)
Fixpoint job_run (n : nat) (c : Capture) (i : nat) (f : Function)
    (js : JobState) (sh : Shared) : JobState * Shared * list Action :=
  match n with
  | O => (js, sh, [])
  | S n =>
      match job_step c i f js sh with
      | None => (js, sh, [])
      | Some (a, js', sh') =>
          let '(js'', sh'', l) := job_run n c i f js' sh' in (js'', sh'', a :: l)
      end
  end.

Module ScenarioE.

Definition no_input : Flags :=
  {| FLAGS_format := "PE"; FLAGS_input := "";
     FLAGS_index := "./similarity.index"; FLAGS_weights := "weights.txt";
     FLAGS_minimum_function_size := 5; FLAGS_no_shared_blocks := false |}.

(** A binary that does not load. *)
Definition unloadable : World :=
  {| GenerateExecutableID := λ _, 77;
     index_file := λ _, Scenario.roomy;
     Load := λ _ _, false;
     funcs := λ _ _, [];
     hardware_concurrency := 2 |}.

(** A binary that loads and has no function. *)
Definition hollow : World :=
  {| GenerateExecutableID := λ _, 77;
     index_file := λ _, Scenario.roomy;
     Load := λ _ _, true;
     funcs := λ _ _, [];
     hardware_concurrency := 2 |}.

End ScenarioE.

(** Opens the conjunctions and existentials of a [history] hypothesis. *)
Ltac open_history :=
  repeat match goal with
  | H : _ ∧ _ |- _ => destruct H
  | H : ∃ _, _ |- _ => destruct H
  | H : False |- _ => destruct H
  end; subst.

(** ** Progress, figures and jobs in flight *)

(** How far a job is: the program points in the order the lambda goes
    through them. *)
Definition rank (js : JobState) : nat :=
  match js with
  | Queued => 0 | Started => 1 | SizeCheck => 2 | SpaceCheck => 3
  | PrintFull => 4 | PrintAdding => 4 | LockGenerator => 5 | Generator => 6
  | Hash => 7 | LockIndex _ _ => 8 | Insert _ _ => 9 | Unlock _ => 10
  | Done _ => 11
  end.

(** The ranks of all jobs together, and what is left to the full rank. *)
Definition advance (fs : list Function) (l : list JobState) : nat :=
  length (gather (λ _ js, replicate (rank js) ()) fs l).

Definition todo (fs : list Function) (l : list JobState) : nat :=
  length (gather (λ _ js, replicate (11 - rank js) ()) fs l).

(** The mutex is held by a job of the pool inside a locked section. *)
Definition live (fs : list Function) (r : Run) : Prop :=
  length (jobs r) = length fs ∧ mutex_held r ∧
  (∀ i, search_index_mutex (shared r) = Some i → (i < length (jobs r))%nat).

(** The figure of processed functions that a progress line shows. *)
Definition shown (m : Msg) : option Z :=
  match m with
  | MsgSkipping p _ _ _ _ _ | MsgIndexFull p _ _ _ _ | MsgAdding p _ _ _ _ _ => Some p
  | _ => None
  end.






(** * Basic facts *)

Section Pool.
Context (c : Capture) (workers : nat) (fs : list Function).

Lemma exec_snoc sched i r :
  exec c workers fs (sched ++ [i]) r = step c workers fs i (exec c workers fs sched r).
Proof. unfold exec. by rewrite foldl_app. Qed.

Lemma exec_app s1 s2 r :
  exec c workers fs (s1 ++ s2) r = exec c workers fs s2 (exec c workers fs s1 r).
Proof. unfold exec. by rewrite foldl_app. Qed.

(** An invariant of [step] holds all along a run. *)
Lemma exec_invariant (P : Run → Prop) r :
  P r → (∀ r' i, P r' → P (step c workers fs i r')) →
  ∀ sched, P (exec c workers fs sched r).
Proof.
  intros H0 Hs sched. induction sched as [|i sched IH] using rev_ind; [done|].
  rewrite exec_snoc. by apply Hs.
Qed.

(** [step] either leaves the run as it is or performs one [job_step]. *)
Lemma step_cases i r :
  step c workers fs i r = r ∨
  ∃ f js a js' sh',
    fs !! i = Some f ∧ jobs r !! i = Some js ∧
    job_step c i f js (shared r) = Some (a, js', sh') ∧
    step c workers fs i r =
      {| jobs := <[i := js']> (jobs r); shared := sh'; trace := trace r ++ [(i, a)] |}.
Proof.
  unfold step.
  destruct (fs !! i) as [f|] eqn:Hf; [|by left].
  destruct (jobs r !! i) as [js|] eqn:Hjs; [|by left].
  destruct (is_queued js && negb (busy (jobs r) <? workers)%nat); [by left|].
  destruct (job_step c i f js (shared r)) as [[[a js'] sh']|] eqn:Hstep; [|by left].
  right. by exists f, js, a, js', sh'.
Qed.

Lemma step_length i r : length (jobs (step c workers fs i r)) = length (jobs r).
Proof.
  destruct (step_cases i r) as [->|(f&js&a&js'&sh'&_&_&_&->)]; [done|].
  simpl. by rewrite length_insert.
Qed.

Lemma exec_length sched r :
  length (jobs (exec c workers fs sched r)) = length (jobs r).
Proof.
  apply (exec_invariant (λ r', length (jobs r') = length (jobs r))); [done|].
  intros r' i <-. apply step_length.
Qed.

End Pool.

(** * The history of a job *)

Lemma events_snoc i tr k a :
  events i (tr ++ [(k, a)]) =
  if decide (k = i) then events i tr ++ [a] else events i tr.
Proof.
  unfold events. rewrite omap_app. simpl.
  destruct (decide (k = i)); [done|]. by rewrite app_nil_r.
Qed.

Lemma elem_of_events i a tr : a ∈ events i tr ↔ (i, a) ∈ tr.
Proof.
  unfold events. rewrite list_elem_of_omap. split.
  - intros ([k b] & Hin & Heq). simpl in Heq.
    destruct (decide (k = i)); by simplify_eq.
  - intros Hin. exists (i, a). split; [done|]. simpl.
    by destruct (decide (i = i)).
Qed.

Lemma elem_of_added x tr : x ∈ added tr ↔ ∃ i, (i, ActAddFunction x) ∈ tr.
Proof.
  unfold added. rewrite list_elem_of_omap. split.
  - intros ([k b] & Hin & Heq). simpl in Heq. destruct b; simplify_eq. by exists k.
  - intros [i Hin]. by exists (i, ActAddFunction x).
Qed.

Lemma added_snoc tr k a :
  added (tr ++ [(k, a)]) =
  added tr ++ match a with ActAddFunction x => [x] | _ => [] end.
Proof. unfold added. rewrite omap_app. simpl. by destruct a. Qed.

(** One action of a job takes its history to the history of the program point
    it reaches, whatever the shared objects hold. *)
Lemma history_step c i f js sh a js' sh' h :
  history c f js h →
  job_step c i f js sh = Some (a, js', sh') →
  history c f js' (h ++ [a]).
Proof.
  intros Hh Hs. unfold passed_size, reads in *.
  destruct js as [| | | | | | | | |x y|x y|o|o]; simpl in Hs.
  - simplify_eq. simpl in *. by subst.
  - simplify_eq. simpl in *. by subst.
  - simpl in Hh. subst h.
    destruct (GetNumberOfBranchingNodes f <=? minimum_size c) eqn:Hle; simplify_eq; simpl.
    + apply Z.leb_le in Hle. eauto.
    + apply Z.leb_gt in Hle. done.
  - simpl in Hh. destruct Hh as [Hp ->]. simplify_eq.
    unfold GetIndexFileFreeSpace.
    destruct (free_space (search_index sh') <? Z.shiftl 1 14) eqn:Hlt; simpl.
    + apply Z.ltb_lt in Hlt. eauto.
    + apply Z.ltb_ge in Hlt. eauto.
  - simpl in Hh. destruct Hh as (Hp & v & Hv & ->). simplify_eq. simpl.
    split; [done|]. by eexists _, _.
  - simpl in Hh. destruct Hh as (Hp & v & Hv & ->). simplify_eq. simpl.
    split; [done|]. by eexists _, _.
  - simpl in Hh. destruct Hh as (Hp & v & p & Hv & ->).
    destruct (search_index_mutex sh); simplify_eq. simpl. eauto.
  - simpl in Hh. destruct Hh as (Hp & v & p & Hv & ->). simplify_eq. simpl.
    split; [done|]. eexists _, _. split; [done|]. by rewrite <- ?app_assoc.
  - simpl in Hh. destruct Hh as (Hp & v & p & Hv & ->).
    simplify_eq. simpl. split; [done|]. split; [done|]. eexists _, _. split; [done|].
    unfold h_hashed. by rewrite <- ?app_assoc.
  - simpl in Hh. destruct Hh as (Hp & Hab & v & p & Hv & ->).
    destruct (search_index_mutex sh); simplify_eq. simpl. eauto 10.
  - simpl in Hh. destruct Hh as (Hp & Hab & v & p & Hv & ->).
    unfold AddFunction in Hs.
    destruct (free_space (search_index sh) <? entry_bytes (search_index sh));
      simplify_eq; simpl; (split; [done|]); eexists _, _, _, _;
      (split; [done|]); (split; [done|]); by rewrite <- ?app_assoc.
  - simplify_eq. destruct o; simpl in Hh; try done;
      destruct Hh as (Hp & a & b & v & p & Hab & Hv & ->); simpl;
      (split; [done|]); eexists _, _, _, _;
      (split; [done|]); (split; [done|]); by rewrite <- ?app_assoc.
  - done.
Qed.

(** * Invariants of a run *)

Section Invariants.
Context (c : Capture) (workers : nat) (fs : list Function).

Lemma lookup_start n idx i js :
  jobs (start n idx) !! i = Some js → js = Queued.
Proof. simpl. intros H. by apply lookup_replicate in H as [-> _]. Qed.

Lemma histories_start n idx : histories c fs (start n idx).
Proof. intros i f js _ ->%lookup_start. done. Qed.

Lemma histories_step i r :
  histories c fs r → histories c fs (step c workers fs i r).
Proof.
  intros Hh.
  destruct (step_cases c workers fs i r) as [->|(f&js&a&js'&sh'&Hf&Hjs&Hs&->)]; [done|].
  intros j g jsj Hg Hj. simpl in *. rewrite events_snoc.
  destruct (decide (i = j)) as [->|Hne].
  - rewrite list_lookup_insert_eq in Hj by (by eapply lookup_lt_Some).
    simplify_eq. eapply history_step; [by apply Hh|done].
  - rewrite list_lookup_insert_ne in Hj by done. by apply Hh.
Qed.

Lemma histories_exec sched n idx :
  histories c fs (exec c workers fs sched (start n idx)).
Proof.
  apply exec_invariant; [apply histories_start|].
  intros r i. apply histories_step.
Qed.

Lemma mutex_held_start n idx : mutex_held (start n idx).
Proof. intros i js ->%lookup_start. simpl. split; done. Qed.

(** A job changes the mutex only by taking it when it is free or by giving
    back what it holds. *)
Lemma job_step_mutex i f js sh a js' sh' :
  job_step c i f js sh = Some (a, js', sh') →
  (holds js = holds js' ∧ search_index_mutex sh' = search_index_mutex sh) ∨
  (holds js = false ∧ holds js' = true ∧
   search_index_mutex sh = None ∧ search_index_mutex sh' = Some i) ∨
  (holds js = true ∧ holds js' = false ∧ search_index_mutex sh' = None).
Proof.
  intros Hs. destruct js; simpl in Hs; repeat case_match; simplify_eq; simpl;
    first [by left | by right; left | by right; right].
Qed.

Lemma mutex_held_step i r :
  mutex_held r → mutex_held (step c workers fs i r).
Proof.
  intros Hm.
  destruct (step_cases c workers fs i r) as [->|(f&js&a&js'&sh'&Hf&Hjs&Hs&->)]; [done|].
  intros j jsj Hj. simpl in *.
  pose proof (Hm i js Hjs) as Hi.
  apply job_step_mutex in Hs.
  destruct (decide (i = j)) as [->|Hne].
  - rewrite list_lookup_insert_eq in Hj by (by eapply lookup_lt_Some).
    simplify_eq. destruct Hs as [[He Hq]|[(H1&H2&H3&H4)|(H1&H2&H3)]].
    + rewrite <- He, Hq. done.
    + rewrite H2, H4. done.
    + rewrite H2, H3. done.
  - rewrite list_lookup_insert_ne in Hj by done.
    pose proof (Hm j jsj Hj) as Hjm.
    destruct Hs as [[He Hq]|[(H1&H2&H3&H4)|(H1&H2&H3)]].
    + by rewrite Hq.
    + rewrite H4. rewrite H3 in Hjm. split; [|congruence].
      intros Hh. apply Hjm in Hh. done.
    + rewrite H3. split; [|done]. intros Hh. apply Hjm in Hh.
      apply Hi in H1. congruence.
Qed.

Lemma mutex_held_exec sched n idx :
  mutex_held (exec c workers fs sched (start n idx)).
Proof.
  apply exec_invariant; [apply mutex_held_start|].
  intros r i. apply mutex_held_step.
Qed.

Lemma index_accounts_start n idx : index_accounts idx (start n idx).
Proof.
  unfold index_accounts. simpl. rewrite app_nil_r. split; [done|]. split; [lia|done].
Qed.

(** A job changes the index only by a successful [AddFunction], which takes
    [entry_bytes] from the free space. *)
Lemma job_step_index i f js sh a js' sh' :
  job_step c i f js sh = Some (a, js', sh') →
  match a with
  | ActAddFunction x =>
      entries (search_index sh') = entries (search_index sh) ++ [x] ∧
      free_space (search_index sh') =
        free_space (search_index sh) - entry_bytes (search_index sh) ∧
      entry_bytes (search_index sh') = entry_bytes (search_index sh) ∧
      entry_bytes (search_index sh) ≤ free_space (search_index sh)
  | _ => search_index sh' = search_index sh
  end.
Proof.
  intros Hs. destruct js; simpl in Hs; unfold AddFunction in Hs;
    repeat case_match; simplify_eq; simpl; try done.
  repeat split; try done. by apply Z.ltb_ge.
Qed.

Lemma index_accounts_step idx i r :
  index_accounts idx r → index_accounts idx (step c workers fs i r).
Proof.
  intros (He & Hfr & Hb).
  destruct (step_cases c workers fs i r) as [->|(f&js&a&js'&sh'&Hf&Hjs&Hs&->)]; [done|].
  apply job_step_index in Hs. unfold index_accounts. simpl.
  rewrite added_snoc.
  destruct a; try (rewrite Hs, app_nil_r; done).
  destruct Hs as (H1 & H2 & H3 & _).
  rewrite H1, H2, H3, He, Hfr, Hb, length_app. simpl.
  split; [by rewrite <- app_assoc|]. split; [lia|done].
Qed.

Lemma index_accounts_exec sched n idx :
  index_accounts idx (exec c workers fs sched (start n idx)).
Proof.
  apply exec_invariant; [apply index_accounts_start|].
  intros r i. apply index_accounts_step.
Qed.

(** Only jobs of the pool act. *)
Lemma trace_jobs sched n idx i a :
  (i, a) ∈ trace (exec c workers fs sched (start n idx)) →
  ∃ f, fs !! i = Some f.
Proof.
  revert i a.
  apply (exec_invariant c workers fs
           (λ r, ∀ i a, (i, a) ∈ trace r → ∃ f, fs !! i = Some f)).
  - simpl. intros i a Hin. by apply elem_of_nil in Hin.
  - intros r k IH i a.
    destruct (step_cases c workers fs k r) as [->|(f&js&b&js'&sh'&Hf&Hjs&Hs&->)];
      [by apply IH|].
    simpl. rewrite elem_of_app, list_elem_of_singleton.
    intros [Hin|Heq]; [by eapply IH|]. simplify_eq. by exists f.
Qed.

End Invariants.

(** * Counting over the jobs of the pool *)

(** Replacing the state of one job changes what is gathered by the share of
    that job only. *)
Lemma gather_update {C} (g : Function → JobState → list C) fs l i f js js' :
  fs !! i = Some f → l !! i = Some js →
  ∃ rest, gather g fs l ≡ₚ g f js ++ rest ∧
          gather g fs (<[i := js']> l) ≡ₚ g f js' ++ rest.
Proof.
  unfold gather. revert l i.
  induction fs as [|f0 fs IH]; intros l i Hf Hl; [done|].
  destruct l as [|j0 l]; [done|].
  destruct i as [|i]; simpl in *.
  - simplify_eq. by exists (concat (zip_with g fs l)).
  - destruct (IH l i Hf Hl) as (rest & H1 & H2).
    exists (g f0 j0 ++ rest). rewrite H1, H2. split; apply Permutation_app_swap_app.
Qed.

Lemma gather_replicate_nil {C} (g : Function → JobState → list C) fs js :
  (∀ f, f ∈ fs → g f js = []) → gather g fs (replicate (length fs) js) = [].
Proof.
  unfold gather. induction fs as [|f0 fs IH]; intros Hg; [done|]. simpl.
  rewrite Hg by apply list_elem_of_here. apply IH.
  intros f Hf. apply Hg. by apply list_elem_of_further.
Qed.

Section Counting.
Context (c : Capture) (workers : nat) (fs : list Function).

(** ** The progress counter *)

Lemma job_step_counter i f js sh a js' sh' :
  job_step c i f js sh = Some (a, js', sh') →
  (counted js' = counted js ∧ processed_functions sh' = processed_functions sh) ∨
  (counted js = false ∧ counted js' = true ∧
   processed_functions sh' = (processed_functions sh + 1) mod uint64_max_succ).
Proof.
  intros Hs. destruct js; simpl in Hs; unfold AddFunction in Hs;
    repeat case_match; simplify_eq; simpl; first [by left | by right].
Qed.

Lemma counter_counts_step i r :
  counter_counts fs r → counter_counts fs (step c workers fs i r).
Proof.
  unfold counter_counts, count_counted. intros Hc.
  destruct (step_cases c workers fs i r) as [->|(f&js&a&js'&sh'&Hf&Hjs&Hs&->)]; [done|].
  simpl.
  destruct (gather_update (λ _ js, unit_if (counted js)) fs (jobs r) i f js js' Hf Hjs)
    as (rest & H1 & H2).
  rewrite H2, length_app. rewrite H1, length_app in Hc.
  destruct (job_step_counter _ _ _ _ _ _ _ Hs) as [[He Hp]|(H3 & H4 & Hp)].
  - by rewrite He, Hp.
  - rewrite Hp, Hc, H3, H4. simpl.
    rewrite Z.add_mod_idemp_l by done. f_equal. lia.
Qed.

Lemma counter_counts_exec sched idx :
  counter_counts fs (exec c workers fs sched (start (length fs) idx)).
Proof.
  apply exec_invariant; [|intros r i; apply counter_counts_step].
  unfold counter_counts, count_counted. simpl.
  by rewrite gather_replicate_nil.
Qed.

End Counting.

(** * Capacity *)

Lemma length_unit_if b : length (unit_if b) = if b then 1%nat else 0%nat.
Proof. by destruct b. Qed.

Lemma pending_start c fs :
  pending c fs (replicate (length fs) Queued) = length (candidates c fs).
Proof.
  unfold pending, gather, candidates.
  induction fs as [|f fs IH]; [done|]. simpl.
  rewrite length_app, IH, length_unit_if.
  by destruct (negb (GetNumberOfBranchingNodes f <=? minimum_size c)).
Qed.

Section Capacity.
Context (c : Capture) (workers : nat) (fs : list Function).

(** With [rest] inserts still to come from the other jobs and room for all
    of them, a job neither finds the index full nor runs out of space. *)
Lemma job_step_ample i f js sh a js' sh' (rest : nat) (bytes : Z) :
  job_step c i f js sh = Some (a, js', sh') →
  0 ≤ bytes → entry_bytes (search_index sh) = bytes →
  Z.shiftl 1 14 +
    bytes * Z.of_nat (length (unit_if (may_add c f js)) + rest)
    ≤ free_space (search_index sh) →
  starved js = false →
  Z.shiftl 1 14 +
    bytes * Z.of_nat (length (unit_if (may_add c f js')) + rest)
    ≤ free_space (search_index sh') ∧
  entry_bytes (search_index sh') = bytes ∧
  starved js' = false.
Proof.
  intros Hs Hb He Hfree Hst. change (Z.shiftl 1 14) with 16384 in *.
  destruct js; simpl in Hs; unfold AddFunction, GetIndexFileFreeSpace in Hs;
    repeat case_match; simplify_eq; simpl in *;
    rewrite ?length_unit_if in *;
    repeat match goal with
    | H : (_ <? _) = true |- _ => apply Z.ltb_lt in H
    | H : (_ <? _) = false |- _ => apply Z.ltb_ge in H
    | H : (_ <=? _) = true |- _ => rewrite H in *
    | H : (_ <=? _) = false |- _ => rewrite H in *
    end; simpl in *; rewrite ?Nat2Z.inj_succ in *;
    change (Z.shiftl 1 14) with 16384 in *;
    try (split; [nia|done]); try nia; try done.
Qed.

Lemma ample_step idx i r :
  0 ≤ entry_bytes idx → ample c fs idx r → ample c fs idx (step c workers fs i r).
Proof.
  intros Hb (Hfree & He & Hst).
  destruct (step_cases c workers fs i r) as [->|(f&js&a&js'&sh'&Hf&Hjs&Hs&->)]; [done|].
  unfold ample, pending in *. simpl.
  destruct (gather_update (λ f js, unit_if (may_add c f js)) fs (jobs r) i f js js' Hf Hjs)
    as (rest & H1 & H2).
  rewrite H2, length_app. rewrite H1, length_app in Hfree.
  destruct (job_step_ample i f js (shared r) a js' sh' (length rest) (entry_bytes idx))
    as (G1 & G2 & G3); try done.
  - by eapply (Forall_lookup_1 _ _ _ _ Hst).
  - split; [done|]. split; [done|]. by apply Forall_insert.
Qed.

Lemma ample_exec idx sched :
  sufficient c fs idx →
  ample c fs idx (exec c workers fs sched (start (length fs) idx)).
Proof.
  intros [Hb Hroom].
  apply exec_invariant; [|intros r i; by apply ample_step].
  unfold ample. simpl. rewrite pending_start. split; [done|]. split; [done|].
  by apply Forall_replicate.
Qed.

(** ** An index that is full from the start *)

Lemma job_step_full i f js sh a js' sh' :
  job_step c i f js sh = Some (a, js', sh') →
  free_space (search_index sh) < Z.shiftl 1 14 →
  quiet js = true →
  search_index sh' = search_index sh ∧ quiet js' = true.
Proof.
  intros Hs Hfree Hq.
  destruct js; simpl in Hs; unfold GetIndexFileFreeSpace in Hs;
    repeat case_match; simplify_eq; simpl in *; try done.
  match goal with H : (_ <? _) = false |- _ => apply Z.ltb_ge in H end. lia.
Qed.

Lemma stays_full_step idx i r :
  free_space idx < Z.shiftl 1 14 →
  stays_full idx r → stays_full idx (step c workers fs i r).
Proof.
  intros Hfree [Hi Hq].
  destruct (step_cases c workers fs i r) as [->|(f&js&a&js'&sh'&Hf&Hjs&Hs&->)]; [done|].
  unfold stays_full. simpl.
  destruct (job_step_full i f js (shared r) a js' sh' Hs) as [G1 G2].
  - by rewrite Hi.
  - by eapply (Forall_lookup_1 _ _ _ _ Hq).
  - split; [congruence|]. by apply Forall_insert.
Qed.

Lemma stays_full_exec idx sched n :
  free_space idx < Z.shiftl 1 14 →
  stays_full idx (exec c workers fs sched (start n idx)).
Proof.
  intros Hfree.
  apply exec_invariant; [|intros r i; by apply stays_full_step].
  split; [done|]. by apply Forall_replicate.
Qed.

End Capacity.

(** * Entries and jobs *)

Section Entries.
Context (c : Capture) (workers : nat) (fs : list Function).

Lemma reads_hashes f a b x y :
  reads f a b → hashes_are f x y → a = x ∧ b = y.
Proof. intros [-> ->] [H0 H1]. unfold subscript. by rewrite H0, H1. Qed.

Lemma hashes_reads f a b : hashes_are f a b → reads f a b.
Proof. intros [H0 H1]. unfold reads, subscript. by rewrite H0, H1. Qed.

Lemma entry_of_reads f a b :
  reads f a b → entry_of c f = [mkEntry a b (file_id c) (addr f)].
Proof. by intros [-> ->]. Qed.

Lemma entry_of_hashes f a b :
  hashes_are f a b → entry_of c f = [mkEntry a b (file_id c) (addr f)].
Proof. intros H. by apply entry_of_reads, hashes_reads. Qed.

(** A job adds its entry at the insert and nowhere else. *)
Lemma job_step_added i f js sh a js' sh' h :
  history c f js h →
  job_step c i f js sh = Some (a, js', sh') →
  match a with
  | ActAddFunction x => added_by c f js = [] ∧ added_by c f js' = [x]
  | _ => added_by c f js' = added_by c f js
  end.
Proof.
  intros Hh Hs. unfold added_by.
  destruct js as [| | | | | | | | |x y|x y|o|o]; try destruct o;
    simpl in Hs; unfold AddFunction in Hs;
    repeat case_match; simplify_eq; simpl in *; try done.
  destruct Hh as (_ & Hab & _). split; [done|]. by apply entry_of_reads.
Qed.

Lemma added_matches_step i r :
  histories c fs r → added_matches c fs r →
  added_matches c fs (step c workers fs i r).
Proof.
  unfold added_matches. intros Hh Hm.
  destruct (step_cases c workers fs i r) as [->|(f&js&a&js'&sh'&Hf&Hjs&Hs&->)]; [done|].
  simpl. rewrite added_snoc.
  destruct (gather_update (added_by c) fs (jobs r) i f js js' Hf Hjs) as (rest & H1 & H2).
  pose proof (job_step_added i f js (shared r) a js' sh' _ (Hh i f js Hf Hjs) Hs) as Ha.
  rewrite H2. rewrite H1 in Hm.
  destruct a; try (rewrite Ha, app_nil_r; done).
  destruct Ha as [Ha1 Ha2]. rewrite Ha1 in Hm. rewrite Ha2, Hm. simpl.
  by rewrite <- Permutation_cons_append.
Qed.

Lemma added_matches_exec sched idx :
  added_matches c fs (exec c workers fs sched (start (length fs) idx)).
Proof.
  pose proof (exec_invariant c workers fs
    (λ r, histories c fs r ∧ added_matches c fs r) (start (length fs) idx)) as H.
  apply H.
  - split; [apply histories_start|]. unfold added_matches. simpl.
    by rewrite gather_replicate_nil.
  - intros r i [Hh Hm]. split; [by apply histories_step|by apply added_matches_step].
Qed.

(** Every job of the pool has a state. *)
Lemma job_state sched idx i f :
  fs !! i = Some f →
  ∃ js, jobs (exec c workers fs sched (start (length fs) idx)) !! i = Some js.
Proof.
  intros Hf. apply lookup_lt_is_Some. rewrite exec_length. simpl.
  rewrite length_replicate. by eapply lookup_lt_Some.
Qed.

End Entries.

(** * What the history of a job tells *)

Section Histories.
Context (c : Capture) (f : Function).

(** A job that wrote an entry passed the size filter, read a free capacity
    of at least the margin, built the entry from what it read as [hashes[0]]
    and [hashes[1]], and did not run out of space. *)
Lemma history_written js h x :
  history c f js h → ActAddFunction x ∈ h →
  passed_size c f ∧ (∃ v, ActFreeSpace v ∈ h ∧ Z.shiftl 1 14 ≤ v) ∧
  (∃ a b, reads f a b ∧ x = mkEntry a b (file_id c) (addr f)) ∧
  (ActBadAlloc ∉ h) ∧ has_added js = true.
Proof.
  intros Hh Hin.
  destruct js as [| | | | | | | | |y z|y z|o|o]; try destruct o; simpl in Hh;
    unfold h_hashed, h_checked, h_sized in Hh; simpl in Hh; open_history;
    try (exfalso; set_solver).
  - split; [done|]. split; [eexists; split; [|done]; set_solver|].
    split; [eexists _, _; split; [done|]; set_solver|]. set_solver.
  - split; [done|]. split; [eexists; split; [|done]; set_solver|].
    split; [eexists _, _; split; [done|]; set_solver|]. set_solver.
Qed.

(** A job that has returned wrote an entry exactly when it passed the size
    filter and the capacity check and its insert did not run out of space. *)
Lemma history_done o h :
  history c f (Done o) h →
  ((∃ x, ActAddFunction x ∈ h) ↔
   passed_size c f ∧ (∃ v, ActFreeSpace v ∈ h ∧ Z.shiftl 1 14 ≤ v) ∧
   (ActBadAlloc ∉ h)).
Proof.
  intros Hh. split.
  - intros [x Hx].
    destruct (history_written _ _ _ Hh Hx) as (H1 & H2 & _ & H4 & _). done.
  - intros (Hp & (v & Hv & Hm) & Hb).
    destruct o; simpl in Hh; unfold passed_size, h_hashed, h_checked, h_sized in *;
      simpl in Hh; open_history.
    + lia.
    + match goal with H : ?w < Z.shiftl 1 14 |- _ => assert (v = w) by set_solver end.
      lia.
    + eexists. repeat first [apply list_elem_of_here | apply list_elem_of_further].
    + exfalso. set_solver.
Qed.

(** A job that is not past the capacity check has done nothing of extraction
    or insertion. *)
Lemma history_quiet js h a :
  history c f js h → quiet js = true → a ∈ h → extracting a = false.
Proof.
  intros Hh Hq Hin.
  destruct js as [| | | | | | | | |y z|y z|o|o]; try destruct o; try done;
    simpl in Hh; unfold h_sized in Hh; simpl in Hh; open_history;
    set_unfold; naive_solver.
Qed.

End Histories.

(** * Soundness of the runs *)

Lemma sound_exec c workers fs idx sched :
  sound c fs idx (exec c workers fs sched (start (length fs) idx)).
Proof.
  repeat split.
  - apply histories_exec.
  - by apply mutex_held_exec.
  - by apply mutex_held_exec.
  - apply index_accounts_exec.
  - apply index_accounts_exec.
  - apply index_accounts_exec.
  - apply counter_counts_exec.
  - apply added_matches_exec.
  - rewrite exec_length. simpl. apply length_replicate.
  - apply trace_jobs.
Qed.

Lemma sound_state c fs idx r i f :
  sound c fs idx r → fs !! i = Some f → ∃ js, jobs r !! i = Some js.
Proof.
  intros (_ & _ & _ & _ & _ & Hl & _) Hf. apply lookup_lt_is_Some.
  rewrite Hl. by eapply lookup_lt_Some.
Qed.

(** * Drained pools *)

Lemma drained_done r i js :
  drained r = true → jobs r !! i = Some js → ∃ o, js = Done o.
Proof.
  unfold drained. rewrite forallb_forall. intros Hall Hjs.
  apply list_elem_of_lookup_2, list_elem_of_In, Hall in Hjs.
  destruct js; try done. by eexists.
Qed.

(** When the share of every job depends on its function only, gathering is a
    map over the functions. *)
Lemma gather_pointwise {C} (g : Function → JobState → list C)
    (g' : Function → list C) fs l :
  length l = length fs →
  (∀ i f js, fs !! i = Some f → l !! i = Some js → g f js = g' f) →
  gather g fs l = concat (map g' fs).
Proof.
  unfold gather. revert l. induction fs as [|f fs IH]; intros l Hlen Hg.
  - by destruct l.
  - destruct l as [|js l]; [done|]. simpl in *.
    rewrite (Hg 0%nat f js) by done. f_equal.
    apply IH; [lia|]. intros i f' js' Hf Hjs. by apply (Hg (S i)).
Qed.

Lemma concat_candidates c fs :
  concat (map (λ f, if negb (GetNumberOfBranchingNodes f <=? minimum_size c)
                    then entry_of c f else []) fs) =
  concat (map (entry_of c) (candidates c fs)).
Proof.
  unfold candidates. induction fs as [|f fs IH]; [done|]. simpl.
  destruct (negb (GetNumberOfBranchingNodes f <=? minimum_size c)); simpl;
    by rewrite IH.
Qed.

Section Drained.
Context (c : Capture) (workers : nat) (fs : list Function).

(** At the end, the counter holds the number of submitted functions. *)
Lemma drained_counter idx r :
  sound c fs idx r → drained r = true →
  processed_functions (shared r) = Z.of_nat (length fs) mod uint64_max_succ.
Proof.
  intros (_ & _ & _ & Hc & _ & Hl & _) Hd. rewrite Hc. do 2 f_equal.
  unfold count_counted.
  rewrite (gather_pointwise _ (λ _, [()])); [|done|].
  - clear. induction fs as [|f l IH]; [done|]. simpl. by rewrite IH.
  - intros i f js _ Hjs. by destruct (drained_done r i js Hd Hjs) as [o ->].
Qed.

(** A job that has returned from a pool with ample room either skipped a
    small function or added the entry of its function. *)
Lemma ample_done idx r i f o :
  sound c fs idx r → ample c fs idx r →
  fs !! i = Some f → jobs r !! i = Some (Done o) →
  (o = TooSmall ∧ GetNumberOfBranchingNodes f ≤ minimum_size c) ∨
  (o = Added ∧ passed_size c f).
Proof.
  intros (Hh & _) (_ & _ & Hst) Hf Hjs.
  pose proof (Hh i f _ Hf Hjs) as Hho.
  pose proof (Forall_lookup_1 _ _ _ _ Hst Hjs) as Hs.
  destruct o; try done; simpl in Hho.
  - left. by destruct Hho.
  - right. by destruct Hho.
Qed.

(** At the end of a run on an index with sufficient room, the index holds
    what it held plus the entries of the functions that pass the size filter,
    in some order. *)
Lemma drained_entries idx r :
  sound c fs idx r → ample c fs idx r → drained r = true →
  entries (search_index (shared r)) ≡ₚ
    entries idx ++ concat (map (entry_of c) (candidates c fs)).
Proof.
  intros Hs Ha Hd. pose proof Hs as (Hh & _ & (He & _) & _ & Hm & Hl & _).
  rewrite He, Hm. apply Permutation_app_head.
  rewrite <- concat_candidates.
  rewrite (gather_pointwise (added_by c)
             (λ f, if negb (GetNumberOfBranchingNodes f <=? minimum_size c)
                   then entry_of c f else [])); [done|done|].
  intros i f js Hf Hjs. destruct (drained_done r i js Hd Hjs) as [o ->].
  destruct (ample_done idx r i f o Hs Ha Hf Hjs) as [[-> Hle]|(-> & Hp)].
  - by rewrite (proj2 (Z.leb_le _ _)).
  - unfold passed_size in Hp. by rewrite (proj2 (Z.leb_gt _ _)).
Qed.

End Drained.

(** * Single steps *)

Section Steps.
Context (c : Capture) (workers : nat) (fs : list Function).

(** A job that a worker has taken moves whenever [job_step] lets it. *)
Lemma step_moves i r f js a js' sh' :
  fs !! i = Some f → jobs r !! i = Some js → is_queued js = false →
  job_step c i f js (shared r) = Some (a, js', sh') →
  step c workers fs i r =
    {| jobs := <[i := js']> (jobs r); shared := sh'; trace := trace r ++ [(i, a)] |}.
Proof. intros Hf Hjs Hq Hs. unfold step. by rewrite Hf, Hjs, Hq, Hs. Qed.

(** A queued job starts when a worker is idle. *)
Lemma step_starts i r f :
  fs !! i = Some f → jobs r !! i = Some Queued → (busy (jobs r) < workers)%nat →
  step c workers fs i r =
    {| jobs := <[i := Started]> (jobs r); shared := shared r;
       trace := trace r ++ [(i, ActStart)] |}.
Proof.
  intros Hf Hjs Hb. unfold step. rewrite Hf, Hjs. simpl.
  by rewrite (proj2 (Nat.ltb_lt _ _) Hb).
Qed.

Lemma status_drained flags w sched r :
  pool (main flags w sched) = Some r → drained r = true →
  status (main flags w sched) = Exit 0.
Proof.
  unfold main.
  destruct (String.eqb (FLAGS_input flags) ""); [done|].
  destruct (negb (Load w (FLAGS_format flags) (FLAGS_input flags))); [done|].
  destruct (length (funcs w (FLAGS_format flags) (FLAGS_input flags)) =? 0)%nat; [done|].
  simpl. intros [= <-] Hd. by rewrite Hd.
Qed.

End Steps.

(** * Draining the pool *)

Section Drain.
Context (c : Capture) (workers : nat) (fs : list Function).

Lemma exec_cons i sched r :
  exec c workers fs (i :: sched) r = exec c workers fs sched (step c workers fs i r).
Proof. done. Qed.

Lemma job_step_not_queued i f js sh a js' sh' :
  job_step c i f js sh = Some (a, js', sh') → is_queued js' = false.
Proof.
  intros Hs. destruct js; simpl in Hs; unfold AddFunction in Hs;
    repeat case_match; by simplify_eq.
Qed.

Lemma exec_stuck i f js r n :
  fs !! i = Some f → jobs r !! i = Some js →
  job_step c i f js (shared r) = None →
  exec c workers fs (replicate n i) r = r.
Proof.
  intros Hf Hjs Hs. induction n as [|n IH]; [done|].
  simpl replicate. rewrite exec_cons.
  assert (step c workers fs i r = r) as ->; [|done].
  unfold step. rewrite Hf, Hjs, Hs. by destruct (_ && _).
Qed.

(** Letting one job move [n] times in a row is [job_run]. *)
Lemma exec_job_run i f n : ∀ r js,
  fs !! i = Some f → jobs r !! i = Some js → is_queued js = false →
  exec c workers fs (replicate n i) r =
    {| jobs := <[i := (job_run n c i f js (shared r)).1.1]> (jobs r);
       shared := (job_run n c i f js (shared r)).1.2;
       trace := trace r ++ map (pair i) (job_run n c i f js (shared r)).2 |}.
Proof.
  induction n as [|n IH]; intros r js Hf Hjs Hq.
  - simpl. rewrite list_insert_id, app_nil_r by done. by destruct r.
  - simpl job_run.
    destruct (job_step c i f js (shared r)) as [[[a js1] sh1]|] eqn:Hs.
    + simpl replicate. rewrite exec_cons.
      rewrite (step_moves c workers fs i r f js a js1 sh1) by done.
      rewrite (IH _ js1); simpl; try done.
      * destruct (job_run n c i f js1 sh1) as [[js2 sh2] l]. simpl.
        by rewrite list_insert_insert_eq, <- app_assoc.
      * apply list_lookup_insert_eq. by eapply lookup_lt_Some.
      * by eapply job_step_not_queued.
    + rewrite (exec_stuck i f js r (S n)) by done. simpl.
      rewrite list_insert_id, app_nil_r by done. by destruct r.
Qed.

Lemma job_run_step n i f js sh a js' sh' :
  job_step c i f js sh = Some (a, js', sh') →
  (job_run (S n) c i f js sh).1 = (job_run n c i f js' sh').1.
Proof. intros Hs. simpl. rewrite Hs. by destruct (job_run n c i f js' sh') as [[? ?] ?]. Qed.

Lemma job_run_over n i f o sh :
  (job_run n c i f (Done o) sh).1 = (Done o, sh).
Proof. by destruct n. Qed.

(** With the mutex free, a started job returns within ten actions and
    leaves the mutex free. *)
Lemma job_run_returns i f sh :
  search_index_mutex sh = None →
  ∃ o sh', (job_run 10 c i f Started sh).1 = (Done o, sh') ∧
           search_index_mutex sh' = None.
Proof.
  intros Hm.
  erewrite job_run_step by (cbn [job_step]; reflexivity).
  destruct (GetNumberOfBranchingNodes f <=? minimum_size c) eqn:Hsize.
  { erewrite job_run_step by (cbn [job_step]; rewrite Hsize; reflexivity).
    rewrite job_run_over. by eexists _, _. }
  erewrite job_run_step by (cbn [job_step]; rewrite Hsize; reflexivity).
  erewrite job_run_step by (cbn [job_step]; reflexivity).
  destruct (GetIndexFileFreeSpace _ <? Z.shiftl 1 14).
  { erewrite job_run_step by (cbn [job_step]; reflexivity).
    rewrite job_run_over. by eexists _, _. }
  erewrite job_run_step by (cbn [job_step]; reflexivity).
  erewrite job_run_step by (cbn [job_step]; simpl; rewrite Hm; reflexivity).
  erewrite job_run_step by (cbn [job_step]; reflexivity).
  erewrite job_run_step by (cbn [job_step]; reflexivity).
  erewrite job_run_step by (cbn [job_step]; reflexivity).
  destruct (AddFunction (subscript f (CalculateFunctionSimHash f 128) 0)
              (subscript f (CalculateFunctionSimHash f 128) 1) (file_id c) (addr f)
              (search_index (with_mutex (Some i) (with_mutex None (with_mutex (Some i)
                 (with_processed ((processed_functions sh + 1) mod uint64_max_succ) sh))))))
    as [[]|idx'] eqn:Hadd.
  - erewrite job_run_step by (cbn [job_step]; rewrite Hadd; reflexivity).
    erewrite job_run_step by (cbn [job_step]; reflexivity).
    rewrite job_run_over. by eexists _, _.
  - erewrite job_run_step by (cbn [job_step]; rewrite Hadd; reflexivity).
    erewrite job_run_step by (cbn [job_step]; reflexivity).
    rewrite job_run_over. by eexists _, _.
Qed.

Lemma busy_idle l :
  Forall (λ js, on_worker js = false) l → busy l = 0%nat.
Proof.
  unfold busy. induction 1 as [|js l Hjs _ IH]; [done|]. simpl. by rewrite Hjs.
Qed.

(** A queued job that has the pool for itself runs to its end in eleven
    actions. *)
Lemma solo i f r :
  (0 < workers)%nat → fs !! i = Some f →
  jobs r !! i = Some Queued → Forall (λ js, on_worker js = false) (jobs r) →
  search_index_mutex (shared r) = None →
  ∃ o r', exec c workers fs (replicate 11 i) r = r' ∧
          jobs r' = <[i := Done o]> (jobs r) ∧
          search_index_mutex (shared r') = None.
Proof.
  intros Hw Hf Hjs Hidle Hm.
  change (replicate 11 i) with (i :: replicate 10 i). rewrite exec_cons.
  rewrite (step_starts c workers fs i r f) by (try done; by rewrite busy_idle).
  erewrite (exec_job_run i f 10 _ Started); simpl jobs; simpl shared; try done.
  - destruct (job_run_returns i f (shared r) Hm) as (o & sh' & Hrun & Hm').
    rewrite Hrun. simpl. eexists o, _. split; [done|]. simpl.
    by rewrite list_insert_insert_eq.
  - apply list_lookup_insert_eq. by eapply lookup_lt_Some.
Qed.

(** Running the queued jobs one after the other drains the pool. *)
Lemma drain_in_turn m : ∀ k r dones,
  (0 < workers)%nat →
  (k + m)%nat = length fs → length dones = k →
  Forall (λ js, is_done js = true) dones →
  jobs r = dones ++ replicate m Queued →
  search_index_mutex (shared r) = None →
  drained (exec c workers fs (concat (map (replicate 11) (seq k m))) r) = true.
Proof.
  induction m as [|m IH]; intros k r dones Hw Hlen Hk Hd Hjobs Hm.
  - simpl. unfold drained. rewrite Hjobs, app_nil_r.
    apply forallb_forall. intros js Hin. apply list_elem_of_In in Hin.
    by apply (proj1 (Forall_forall _ _) Hd).
  - cbn [seq map concat]. rewrite exec_app.
    destruct (lookup_lt_is_Some_2 fs k) as [f Hf]; [lia|].
    destruct (solo k f r) as (o & r' & Hr' & Hj' & Hm'); try done.
    + rewrite Hjobs, lookup_app_r by lia.
      by replace (k - length dones)%nat with 0%nat by lia.
    + rewrite Hjobs. apply Forall_app. split.
      * eapply Forall_impl; [exact Hd|]. intros js Hjs. by destruct js.
      * by apply Forall_replicate.
    + rewrite Hr'. apply (IH (S k) r' (dones ++ [Done o])); try done.
      * lia.
      * rewrite length_app. simpl. lia.
      * apply Forall_app. split; [done|]. by constructor.
      * rewrite Hj', Hjobs, <- app_assoc. simpl.
        rewrite insert_app_r_alt by lia.
        by replace (k - length dones)%nat with 0%nat by lia.
Qed.

Lemma drain_from_start idx :
  (0 < workers)%nat →
  drained (exec c workers fs (in_turn (length fs)) (start (length fs) idx)) = true.
Proof.
  intros Hw. by apply (drain_in_turn (length fs) 0%nat _ []).
Qed.

End Drain.

(** * main *)

(** When the input is given, the binary loads and has functions, [main]
    runs the pool on the pushed functions. *)
Lemma main_runs flags w sched :
  FLAGS_input flags ≠ "" →
  Load w (FLAGS_format flags) (FLAGS_input flags) = true →
  funcs w (FLAGS_format flags) (FLAGS_input flags) ≠ [] →
  main flags w sched =
    {| status := if drained (pool_run flags w sched) then Exit 0 else Waiting;
       stdout := [MsgExecutableId (GenerateExecutableID w (FLAGS_input flags))] ++
                 concat (map printed (trace (pool_run flags w sched)));
       pool := Some (pool_run flags w sched) |}.
Proof.
  intros Hin Hload Hfuncs. unfold main, pool_run, pushed, captured.
  apply String.eqb_neq in Hin. rewrite Hin, Hload. simpl.
  destruct (funcs w (FLAGS_format flags) (FLAGS_input flags)); [done|]. done.
Qed.

(** * The properties of the specification *)

Lemma history_at_most_one c f js h :
  history c f js h → (length (entries_written h) ≤ 1)%nat.
Proof.
  intros Hh.
  destruct js as [| | | | | | | | |y z|y z|o|o]; try destruct o; simpl in Hh;
    open_history; simpl; lia.
Qed.

Lemma submitted_passed no_shared_blocks functions i f :
  submitted no_shared_blocks functions !! i = Some f →
  f ∈ functions ∧ (no_shared_blocks && ContainsSharedBasicBlocks f) = false.
Proof.
  intros Hf. apply list_elem_of_lookup_2, list_elem_of_In in Hf.
  unfold submitted in Hf. apply filter_In in Hf as [Hin Hb].
  split; [by apply list_elem_of_In|]. by apply negb_true_iff.
Qed.

(** C7: for every function whose branching-node count is at most the
    minimum size, the job never calls [AddFunction] with success: none of the
    entries that the run puts in the index was written by that job. *)
Theorem small_function_never_indexed c workers fs idx sched i f :
  fs !! i = Some f →
  GetNumberOfBranchingNodes f ≤ minimum_size c →
  let r := exec c workers fs sched (start (length fs) idx) in
  entries (search_index (shared r)) = entries idx ++ added (trace r) ∧
  ∀ x, (i, ActAddFunction x) ∉ trace r.
Proof.
  intros Hf Hle r. split; [apply index_accounts_exec|].
  intros x Hx%elem_of_events.
  destruct (job_state c workers fs sched idx i f Hf) as [js Hjs].
  pose proof (histories_exec c workers fs sched (length fs) idx i f js Hf Hjs) as Hh.
  destruct (history_written c f js _ x Hh Hx) as [Hp _].
  unfold passed_size in Hp. lia.
Qed.

(** A small function next to a large one, each job run in turn. *)
Lemma small_function_never_indexed_witness :
  let r := exec Scenario.capture 2 [Scenario.f_small; Scenario.f_big]
             (in_turn 2) (start 2 Scenario.roomy) in
  entries (search_index (shared r)) = entries Scenario.roomy ++ added (trace r) ∧
  ∀ x, (0%nat, ActAddFunction x) ∉ trace r.
Proof.
  apply (small_function_never_indexed Scenario.capture 2
           [Scenario.f_small; Scenario.f_big] Scenario.roomy (in_turn 2)
           0 Scenario.f_small).
  - reflexivity.
  - simpl. lia.
Defined.

(** C1, as the code has it: every action of a run belongs to a job of a
    function that passed the shared-block filter.  A job that has returned
    wrote an entry only if its function passed the minimum-size filter, the
    free capacity the job read at its check was at least the 16 KiB margin,
    and the insert itself did not run out of space; and it did write one if
    these three hold and the fingerprinter returned the two values that the
    job reads.  No job writes more than one entry. *)
Theorem entry_written_iff c workers no_shared_blocks functions idx sched :
  let fs := submitted no_shared_blocks functions in
  let r := exec c workers fs sched (start (length fs) idx) in
  (∀ i a, (i, a) ∈ trace r →
     ∃ f, fs !! i = Some f ∧ f ∈ functions ∧
          (no_shared_blocks && ContainsSharedBasicBlocks f) = false) ∧
  (∀ i f o, fs !! i = Some f → jobs r !! i = Some (Done o) →
     (written r i →
      passed_size c f ∧ capacity_at_check r i ∧ ((i, ActBadAlloc) ∉ trace r)) ∧
     (two_hashes f →
      passed_size c f → capacity_at_check r i → ((i, ActBadAlloc) ∉ trace r) →
      written r i)) ∧
  (∀ i, (length (entries_written (events i (trace r))) ≤ 1)%nat).
Proof.
  intros fs r. split; [|split].
  - intros i a Hin. destruct (trace_jobs c workers fs sched _ idx i a Hin) as [f Hf].
    exists f. split; [done|]. by eapply submitted_passed.
  - intros i f o Hf Hjs.
    pose proof (histories_exec c workers fs sched (length fs) idx i f _ Hf Hjs) as Hh.
    apply history_done in Hh. unfold written, capacity_at_check.
    setoid_rewrite <- elem_of_events. split; [apply Hh|].
    intros _ Hp Hc Hb. by apply Hh.
  - intros i. destruct (fs !! i) as [f|] eqn:Hf.
    + destruct (job_state c workers fs sched idx i f Hf) as [js Hjs].
      eapply history_at_most_one.
      by apply (histories_exec c workers fs sched (length fs) idx i f js).
    + destruct (events i (trace r)) as [|a h] eqn:He; [simpl; lia|].
      assert (a ∈ events i (trace r)) as Hin by (rewrite He; apply list_elem_of_here).
      apply elem_of_events in Hin.
      destruct (trace_jobs c workers fs sched _ idx i a Hin) as [f' Hf']. congruence.
Qed.

(** The first and the fifth job of the race: the first wrote its entry, the
    fifth got the out-of-space message and wrote none. *)
Lemma entry_written_iff_witness :
  written Scenario.race 0 ∧
  capacity_at_check Scenario.race 0 ∧
  ((0%nat, ActBadAlloc) ∉ trace Scenario.race) ∧
  (written Scenario.race 4 → (4%nat, ActBadAlloc) ∉ trace Scenario.race).
Proof.
  pose proof (entry_written_iff Scenario.capture5 8 false Scenario.five Scenario.tight
                Scenario.racing) as (_ & H & _).
  assert (written Scenario.race 0) as Hw.
  { destruct (H 0%nat (mkFunction 4096 false 10 (λ _, [1; 101]) (λ _, 0)) Added)
      as [_ Hw]; [reflexivity|vm_compute; reflexivity|].
    apply Hw.
    - by exists 1, 101.
    - unfold passed_size. simpl. lia.
    - exists 16384. split; [|by vm_compute].
      vm_compute. repeat first [apply list_elem_of_here | apply list_elem_of_further].
    - intros Hin. vm_compute in Hin.
      repeat (apply elem_of_cons in Hin as [Hin|Hin]; [discriminate|]).
      by apply elem_of_nil in Hin. }
  destruct (H 0%nat (mkFunction 4096 false 10 (λ _, [1; 101]) (λ _, 0)) Added)
    as [H0 _]; [reflexivity|vm_compute; reflexivity|].
  destruct (H 4%nat (mkFunction 20480 false 10 (λ _, [5; 105]) (λ _, 0)) NoSpaceLeft)
    as [H4 _]; [reflexivity|vm_compute; reflexivity|].
  split; [exact Hw|]. split; [apply (H0 Hw)|]. split; [apply (H0 Hw)|].
  intros Hw4. apply (H4 Hw4).
Defined.

(** C1, counterexample: in the race, the fifth job passes the size filter,
    reads a free capacity of exactly the margin and gets two hashes, yet
    writes no entry: the four inserts before its own took all the space. *)
Lemma written_iff_checks_fails :
  drained Scenario.race = true ∧
  ¬ written_iff_checks Scenario.capture5 Scenario.five Scenario.race.
Proof.
  split; [by vm_compute|]. intros H.
  destruct (H 4%nat (mkFunction 20480 false 10 (λ _, [5; 105]) (λ _, 0)) eq_refl) as [_ Hw].
  destruct Hw as [x Hx].
  - split; [unfold passed_size; simpl; lia|]. split.
    + exists 16384. split; [|by vm_compute].
      apply elem_of_events.
      set (h := events 4 (trace Scenario.race)). vm_compute in h. subst h.
      repeat first [apply list_elem_of_here | apply list_elem_of_further].
    + by exists 5, 105.
  - apply elem_of_events in Hx.
    set (h := events 4 (trace Scenario.race)) in Hx. vm_compute in h. subst h.
    set_solver.
Qed.

(** C4, as the code has it: when the index starts with less free capacity
    than the 16 KiB margin, the run leaves the index as it is and writes no
    entry, and no job performs any action of extraction or insertion; a job
    that returns has reported "index full" when its function passes the size
    filter, and the size skip otherwise, because the size check comes first;
    and with a worker in the pool, running the jobs in turn lets every job
    return. *)
Theorem full_index_skips c workers fs idx sched :
  free_space idx < Z.shiftl 1 14 →
  let r := exec c workers fs sched (start (length fs) idx) in
  search_index (shared r) = idx ∧ added (trace r) = [] ∧
  (∀ i a, (i, a) ∈ trace r → extracting a = false) ∧
  (∀ i f o, fs !! i = Some f → jobs r !! i = Some (Done o) →
     if GetNumberOfBranchingNodes f <=? minimum_size c
     then o = TooSmall ∧
          ∃ p, (i, ActPrint (MsgSkipping p (number_of_functions c)
                               (binary_path_string c) (file_id c) (addr f)
                               (GetNumberOfBranchingNodes f))) ∈ trace r
     else o = IndexFull ∧
          ∃ p, (i, ActPrint (MsgIndexFull p (number_of_functions c)
                               (binary_path_string c) (file_id c) (addr f))) ∈ trace r) ∧
  ((0 < workers)%nat →
   drained (exec c workers fs (in_turn (length fs)) (start (length fs) idx)) = true).
Proof.
  intros Hfree. cbv zeta.
  assert (Hdrain : (0 < workers)%nat →
            drained (exec c workers fs (in_turn (length fs)) (start (length fs) idx)) = true).
  { intros Hw. by apply drain_from_start. }
  destruct (stays_full_exec c workers fs idx sched (length fs) Hfree) as [Hidx Hq].
  pose proof (sound_exec c workers fs idx sched) as Hs.
  set (r := exec c workers fs sched (start (length fs) idx)) in *. clearbody r.
  pose proof Hs as (Hh & _ & _ & _ & _ & _ & Ht).
  assert (Hquiet : ∀ i a, (i, a) ∈ trace r → extracting a = false).
  { intros i a Hin. destruct (Ht i a Hin) as [f Hf].
    destruct (sound_state c fs idx r i f Hs Hf) as [js Hjs].
    eapply (history_quiet c f js).
    - by apply Hh.
    - by eapply (Forall_lookup_1 _ _ _ _ Hq).
    - by apply elem_of_events. }
  split; [done|]. split; [|split; [done|split; [|done]]].
  - destruct (added (trace r)) as [|x l] eqn:Ha; [done|].
    assert (x ∈ added (trace r)) as Hx by (rewrite Ha; apply list_elem_of_here).
    apply elem_of_added in Hx as [i Hx]. by apply Hquiet in Hx.
  - intros i f o Hf Hjs. pose proof (Hh i f _ Hf Hjs) as Hho.
    pose proof (Forall_lookup_1 _ _ _ _ Hq Hjs) as Hqo. simpl in Hqo.
    unfold passed_size, h_sized in Hho. clear Hs Hh Ht Hquiet Hq Hidx Hdrain.
    destruct o; try done; simpl in Hho; open_history.
    + match goal with H : events _ _ = _ |- _ => rename H into He end.
      rewrite (proj2 (Z.leb_le _ _)) by done. split; [done|].
      eexists. apply elem_of_events. rewrite He.
      repeat first [apply list_elem_of_here | apply list_elem_of_further].
    + match goal with H : events _ _ = _ |- _ => rename H into He end.
      rewrite (proj2 (Z.leb_gt _ _)) by done. split; [done|].
      eexists. apply elem_of_events. rewrite He.
      repeat first [apply list_elem_of_here | apply list_elem_of_further].
Qed.

(** Scenario B: an index file with 8 KiB left. *)
Lemma full_index_skips_witness :
  let r := ScenarioB.run in
  search_index (shared r) = ScenarioB.prefilled ∧ added (trace r) = [] ∧
  (∀ i a, (i, a) ∈ trace r → extracting a = false) ∧
  drained r = true.
Proof.
  intros r.
  destruct (full_index_skips Scenario.capture 2 [Scenario.f_small; Scenario.f_big]
              ScenarioB.prefilled (in_turn 2)) as (H1 & H2 & H3 & _ & H5).
  - by vm_compute.
  - exact (conj H1 (conj H2 (conj H3 (H5 (Nat.lt_0_succ 1))))).
Defined.

(** C4, counterexample: with 8 KiB left, the job of a function of two
    branching nodes returns with the size skip and never reports the index as
    full. *)
Lemma all_report_full_fails :
  drained ScenarioB.run = true ∧
  ¬ all_report_full Scenario.capture [Scenario.f_small; Scenario.f_big] ScenarioB.run.
Proof.
  split; [by vm_compute|]. intros H.
  destruct (H 0%nat Scenario.f_small eq_refl) as [p Hp].
  apply elem_of_events in Hp.
  set (h := events 0 (trace ScenarioB.run)) in Hp. vm_compute in h. subst h.
  set_solver.
Qed.

(** Scenario C: under every schedule that drains the pool the index ends
    with the entries of both functions, the first made of 51 and of what the
    read of [hashes[1]] found. *)
Lemma scenario_C_entries g sched :
  drained (pool_run ScenarioC.flags (ScenarioC.world g) sched) = true →
  entries (search_index (shared (pool_run ScenarioC.flags (ScenarioC.world g) sched)))
    ≡ₚ [mkEntry 51 g 77 20480; mkEntry 31 32 77 12288].
Proof.
  intros Hd. unfold pool_run in *.
  change (pushed ScenarioC.flags (ScenarioC.world g))
    with [ScenarioC.f_short g; Scenario.f_big] in *.
  change (index_file (ScenarioC.world g) (FLAGS_index ScenarioC.flags))
    with Scenario.roomy in *.
  set (c := captured ScenarioC.flags (ScenarioC.world g)) in *.
  assert (sufficient c [ScenarioC.f_short g; Scenario.f_big] Scenario.roomy) as Hsuf
    by (split; vm_compute; discriminate).
  rewrite (drained_entries c [ScenarioC.f_short g; Scenario.f_big] Scenario.roomy);
    [done|apply sound_exec|by apply ample_exec|done].
Qed.

(** C9: the code at the failing input.  The same binary, whose first
    function gets a single value from the fingerprinter, is run twice with
    the same configuration, each time against an empty index with room for
    both functions.  With the jobs run in turn both pools drain and both runs
    exit with 0; the read of [hashes[1]] finds 0 in one run and 7 in the
    other, and whatever the two schedules, when both runs exit with 0 the
    two indexes do not hold the same entries. *)
Theorem short_fingerprint_runs_differ :
  let r1 := pool_run ScenarioC.flags (ScenarioC.world 0) (in_turn 2) in
  let r2 := pool_run ScenarioC.flags (ScenarioC.world 7) (in_turn 2) in
  Forall2 same_binary (pushed ScenarioC.flags (ScenarioC.world 0))
                      (pushed ScenarioC.flags (ScenarioC.world 7)) ∧
  captured ScenarioC.flags (ScenarioC.world 0) = captured ScenarioC.flags (ScenarioC.world 7) ∧
  entries (index_file (ScenarioC.world 0) (FLAGS_index ScenarioC.flags)) = [] ∧
  entries (index_file (ScenarioC.world 7) (FLAGS_index ScenarioC.flags)) = [] ∧
  sufficient (captured ScenarioC.flags (ScenarioC.world 0))
             (pushed ScenarioC.flags (ScenarioC.world 0)) Scenario.roomy ∧
  status (main ScenarioC.flags (ScenarioC.world 0) (in_turn 2)) = Exit 0 ∧
  status (main ScenarioC.flags (ScenarioC.world 7) (in_turn 2)) = Exit 0 ∧
  drained r1 = true ∧ drained r2 = true ∧
  entries (search_index (shared r1)) =
    [mkEntry 51 0 77 20480; mkEntry 31 32 77 12288] ∧
  entries (search_index (shared r2)) =
    [mkEntry 51 7 77 20480; mkEntry 31 32 77 12288] ∧
  ∀ sched1 sched2,
    status (main ScenarioC.flags (ScenarioC.world 0) sched1) = Exit 0 →
    status (main ScenarioC.flags (ScenarioC.world 7) sched2) = Exit 0 →
    ¬ same_entries (pool_run ScenarioC.flags (ScenarioC.world 0) sched1)
                   (pool_run ScenarioC.flags (ScenarioC.world 7) sched2).
Proof.
  intros r1 r2. split; [repeat constructor|]. split; [reflexivity|].
  split; [reflexivity|]. split; [reflexivity|].
  split; [split; vm_compute; discriminate|].
  split; [by vm_compute|]. split; [by vm_compute|].
  split; [by vm_compute|]. split; [by vm_compute|].
  split; [by vm_compute|]. split; [by vm_compute|].
  intros sched1 sched2 He1 He2 H.
  rewrite main_runs in He1, He2 by done. simpl in He1, He2.
  destruct (drained (pool_run ScenarioC.flags (ScenarioC.world 0) sched1)) eqn:Hd1;
    [|done].
  destruct (drained (pool_run ScenarioC.flags (ScenarioC.world 7) sched2)) eqn:Hd2;
    [|done].
  destruct (H (mkEntry 51 0 77 20480)) as [H12 _].
  rewrite (scenario_C_entries 0 sched1 Hd1), (scenario_C_entries 7 sched2 Hd2) in H12.
  specialize (H12 ltac:(apply list_elem_of_here)).
  repeat (apply elem_of_cons in H12 as [H12|H12]; [discriminate|]).
  by apply elem_of_nil in H12.
Qed.

(** Both runs with the jobs in turn. *)
Lemma short_fingerprint_runs_differ_witness :
  ¬ same_entries (pool_run ScenarioC.flags (ScenarioC.world 0) (in_turn 2))
                 (pool_run ScenarioC.flags (ScenarioC.world 7) (in_turn 2)).
Proof.
  apply short_fingerprint_runs_differ; vm_compute; reflexivity.
Defined.

(** C2, as the code has it: for a binary of three functions, the first of
    two branching nodes, the second marked as sharing blocks, the third of ten
    branching nodes and sharing none, with a threshold of 5,
    [no_shared_blocks] set and an index with room for one insert beyond the
    margin, some schedule drains the pool, and every run that drains its pool
    ends with exactly one new entry, that of the third function, and with a
    count of 2: the function that shares blocks is skipped before any job is
    pushed, so nothing counts it, while the small function is counted by its
    job before the size check. *)
Theorem scenario_A flags w f1 f2 f3 :
  FLAGS_input flags ≠ "" →
  Load w (FLAGS_format flags) (FLAGS_input flags) = true →
  funcs w (FLAGS_format flags) (FLAGS_input flags) = [f1; f2; f3] →
  FLAGS_minimum_function_size flags = 5 →
  FLAGS_no_shared_blocks flags = true →
  GetNumberOfBranchingNodes f1 = 2 → ContainsSharedBasicBlocks f1 = false →
  ContainsSharedBasicBlocks f2 = true →
  GetNumberOfBranchingNodes f3 = 10 → ContainsSharedBasicBlocks f3 = false →
  0 ≤ entry_bytes (index_file w (FLAGS_index flags)) →
  Z.shiftl 1 14 + entry_bytes (index_file w (FLAGS_index flags))
    ≤ free_space (index_file w (FLAGS_index flags)) →
  (0 < hardware_concurrency w)%nat → two_hashes f3 →
  (∃ sched, status (main flags w sched) = Exit 0) ∧
  ∀ sched, status (main flags w sched) = Exit 0 →
    ∃ r a b,
      pool (main flags w sched) = Some r ∧
      processed_functions (shared r) = 2 ∧
      hashes_are f3 a b ∧
      entries (search_index (shared r)) =
        entries (index_file w (FLAGS_index flags)) ++
        [mkEntry a b (GenerateExecutableID w (FLAGS_input flags)) (addr f3)].
Proof.
  intros Hin Hload Hfuncs Hmin Hnsb Hb1 Hs1 Hs2 Hb3 Hs3 Hbytes Hroom Hw Ht3.
  assert (Hfs : pushed flags w = [f1; f3]).
  { unfold pushed, submitted. rewrite Hfuncs, Hnsb. simpl. by rewrite Hs1, Hs2, Hs3. }
  split.
  { exists (in_turn 2). rewrite main_runs by (try done; by rewrite Hfuncs). simpl.
    unfold pool_run. rewrite Hfs. by rewrite drain_from_start. }
  intros sched Hexit.
  rewrite main_runs in * by (try done; by rewrite Hfuncs). simpl in Hexit.
  destruct (drained (pool_run flags w sched)) eqn:Hd; [|done].
  set (c := captured flags w) in *.
  set (idx := index_file w (FLAGS_index flags)) in *.
  assert (Hsuf : sufficient c [f1; f3] idx).
  { split; [done|]. unfold candidates. simpl. rewrite Hb1, Hb3, Hmin. simpl.
    rewrite Z.mul_1_r. done. }
  assert (Hcand : candidates c [f1; f3] = [f3]).
  { unfold candidates. simpl. by rewrite Hb1, Hb3, Hmin. }
  unfold pool_run in *. fold c idx in Hd |- *. rewrite Hfs in *.
  pose proof (sound_exec c (hardware_concurrency w) [f1; f3] idx sched) as Hs.
  pose proof (ample_exec c (hardware_concurrency w) [f1; f3] idx sched Hsuf) as Ha.
  set (r := exec c (hardware_concurrency w) [f1; f3] sched (start (length [f1; f3]) idx)) in *.
  clearbody r. destruct Ht3 as (a & b & Hab).
  exists r, a, b. split; [done|]. split; [|split; [done|]].
  - by rewrite (drained_counter c [f1; f3] idx r Hs Hd).
  - pose proof (drained_entries c [f1; f3] idx r Hs Ha Hd) as Hp.
    destruct Hs as (_ & _ & (He & _) & _).
    rewrite He in Hp |- *. f_equal.
    apply Permutation_app_inv_l in Hp. rewrite Hcand in Hp. cbn [map concat] in Hp.
    rewrite (entry_of_hashes c f3 a b Hab), app_nil_r in Hp.
    by apply Permutation_singleton_r in Hp.
Qed.

(** Scenario A with hashes 31 and 32 for the large function. *)
Lemma scenario_A_witness :
  (∃ sched, status (main ScenarioA.flags ScenarioA.world sched) = Exit 0) ∧
  ∀ sched, status (main ScenarioA.flags ScenarioA.world sched) = Exit 0 →
    ∃ r a b,
      pool (main ScenarioA.flags ScenarioA.world sched) = Some r ∧
      processed_functions (shared r) = 2 ∧
      hashes_are Scenario.f_big a b ∧
      entries (search_index (shared r)) =
        entries Scenario.roomy ++ [mkEntry a b 77 (addr Scenario.f_big)].
Proof.
  apply (scenario_A ScenarioA.flags ScenarioA.world
           Scenario.f_small Scenario.f_shared Scenario.f_big).
  - discriminate.
  - reflexivity.
  - reflexivity.
  - reflexivity.
  - reflexivity.
  - reflexivity.
  - reflexivity.
  - reflexivity.
  - reflexivity.
  - reflexivity.
  - vm_compute. discriminate.
  - vm_compute. discriminate.
  - simpl. lia.
  - by exists 31, 32.
Defined.

(** C2, counterexample: on the scenario, with every job run in turn, main
    exits with 0, and the count at the end is not 3. *)
Lemma one_entry_count_three_fails :
  status (main ScenarioA.flags ScenarioA.world (in_turn 2)) = Exit 0 ∧
  ¬ one_entry_count_three (main ScenarioA.flags ScenarioA.world (in_turn 2)).
Proof.
  split; [by vm_compute|]. intros (r & Hr & _ & Hc).
  vm_compute in Hr. injection Hr as <-. vm_compute in Hc. discriminate.
Qed.

(** C6: when [AddFunction] throws [bad_alloc] for a job that is about to
    insert, the next two actions of the job print the out-of-space message and
    release the mutex: the index, the counter and the other jobs are as they
    were, the job has returned, and the mutex is free for the jobs that
    remain.  Whatever the outcomes of the jobs, main exits with 0 once the
    pool has drained. *)
Theorem out_of_space_is_caught c workers fs i f a b r :
  fs !! i = Some f → jobs r !! i = Some (Insert a b) →
  AddFunction a b (file_id c) (addr f) (search_index (shared r)) = inl out_of_space →
  let r' := step c workers fs i (step c workers fs i r) in
  search_index (shared r') = search_index (shared r) ∧
  processed_functions (shared r') = processed_functions (shared r) ∧
  search_index_mutex (shared r') = None ∧
  trace r' = trace r ++ [(i, ActBadAlloc); (i, ActUnlock)] ∧
  concat (map printed (trace r')) = concat (map printed (trace r)) ++ [MsgBadAlloc] ∧
  jobs r' = <[i := Done NoSpaceLeft]> (jobs r) ∧
  ∀ flags w sched p,
    pool (main flags w sched) = Some p → drained p = true →
    status (main flags w sched) = Exit 0.
Proof.
  intros Hf Hjs Hadd. cbv zeta.
  rewrite (step_moves c workers fs i r f (Insert a b) ActBadAlloc
             (Unlock NoSpaceLeft) (shared r)); try done; [|simpl; by rewrite Hadd].
  rewrite (step_moves c workers fs i _ f (Unlock NoSpaceLeft) ActUnlock
             (Done NoSpaceLeft) (with_mutex None (shared r))); try done; simpl.
  - rewrite list_insert_insert_eq, <- app_assoc.
    repeat split; try done.
    + by rewrite !map_app, !concat_app.
    + intros flags w sched p. apply status_drained.
  - apply list_lookup_insert_eq. by eapply lookup_lt_Some.
Qed.

(** The fifth job of the race, about to insert into an index that the four
    inserts before it have filled. *)
Lemma out_of_space_is_caught_witness :
  let r := Scenario.before_insert in
  let r' := step Scenario.capture5 8 Scenario.five 4
              (step Scenario.capture5 8 Scenario.five 4 r) in
  search_index (shared r') = search_index (shared r) ∧
  processed_functions (shared r') = processed_functions (shared r) ∧
  search_index_mutex (shared r') = None ∧
  trace r' = trace r ++ [(4%nat, ActBadAlloc); (4%nat, ActUnlock)] ∧
  concat (map printed (trace r')) = concat (map printed (trace r)) ++ [MsgBadAlloc] ∧
  jobs r' = <[4%nat := Done NoSpaceLeft]> (jobs r) ∧
  ∀ flags w sched p,
    pool (main flags w sched) = Some p → drained p = true →
    status (main flags w sched) = Exit 0.
Proof.
  apply (out_of_space_is_caught Scenario.capture5 8 Scenario.five 4
           (mkFunction 20480 false 10 (λ _, [5; 105]) (λ _, 0)) 5 105 Scenario.before_insert).
  - reflexivity.
  - vm_compute. reflexivity.
  - vm_compute. reflexivity.
Defined.

(** The sections run under [search_index_mutex] exclude one another: at no
    point of a run do two jobs hold the mutex. *)
Lemma locked_sections_exclusive c workers fs idx sched i j jsi jsj :
  let r := exec c workers fs sched (start (length fs) idx) in
  jobs r !! i = Some jsi → jobs r !! j = Some jsj →
  holds jsi = true → holds jsj = true → i = j.
Proof.
  intros r Hi Hj Hhi Hhj.
  pose proof (mutex_held_exec c workers fs sched (length fs) idx) as Hm.
  apply (Hm i jsi Hi) in Hhi. apply (Hm j jsj Hj) in Hhj.
  fold r in Hhi, Hhj. congruence.
Qed.

(** The read of the free capacity does not look at the mutex. *)
Lemma capacity_read_unlocked c workers fs i f r :
  fs !! i = Some f → jobs r !! i = Some SpaceCheck →
  step c workers fs i r =
    {| jobs := <[i := if GetIndexFileFreeSpace (search_index (shared r)) <? Z.shiftl 1 14
                      then PrintFull else PrintAdding]> (jobs r);
       shared := shared r;
       trace := trace r ++
                [(i, ActFreeSpace (GetIndexFileFreeSpace (search_index (shared r))))] |}.
Proof. intros Hf Hjs. by eapply step_moves. Qed.

(** C3: the code at the failing input.  After nine actions of the first job
    and three of the second, the first job holds the mutex and is about to
    call [AddFunction], the second is about to call [GetIndexFileFreeSpace];
    the second job's read goes ahead without the mutex, so the exclusion that
    the data model asks for does not hold in this run. *)
Theorem capacity_read_overlaps_insert :
  jobs Scenario.overlap !! 0%nat = Some (Insert 1 101) ∧
  search_index_mutex (shared Scenario.overlap) = Some 0%nat ∧
  jobs Scenario.overlap !! 1%nat = Some SpaceCheck ∧
  trace (step Scenario.capture5 8 Scenario.five 1 Scenario.overlap) =
    trace Scenario.overlap ++ [(1%nat, ActFreeSpace 16384)] ∧
  ¬ capacity_read_excluded Scenario.capture5 8 Scenario.five Scenario.overlap.
Proof.
  split; [by vm_compute|]. split; [by vm_compute|]. split; [by vm_compute|].
  split; [by vm_compute|]. intros H.
  specialize (H 1%nat 0%nat 1 101).
  assert (step Scenario.capture5 8 Scenario.five 1 Scenario.overlap = Scenario.overlap)
    as Heq by (apply H; [done|by vm_compute|by vm_compute]).
  apply (f_equal (λ r, length (trace r))) in Heq. vm_compute in Heq. discriminate.
Qed.

(** * Fingerprints *)

(** C5: the code at the failing input.  The fingerprinter returns the single
    value 51 for the first of two functions, and the read of [hashes[1]]
    finds [g].  The job does not look at the size of [hashes]: it prints
    nothing about it, takes [search_index_mutex] and inserts the entry
    (51, g); with the jobs run in turn both return after their inserts and
    main exits with 0, and under every schedule with which main exits with 0
    the index ends with the entry (51, g) next to that of the second
    function. *)
Theorem short_fingerprint_is_indexed (g : Z) :
  let res := main ScenarioC.flags (ScenarioC.world g) (in_turn 2) in
  CalculateFunctionSimHash (ScenarioC.f_short g) 128 = [51] ∧
  status res = Exit 0 ∧
  stdout res = [MsgExecutableId 77;
                MsgAdding 1 2 "a.exe" 77 20480 10;
                MsgAdding 2 2 "a.exe" 77 12288 10] ∧
  (∃ r, pool res = Some r ∧
        jobs r = [Done Added; Done Added] ∧
        events 0 (trace r) =
          [ActStart; ActIncrement; ActSizeOk; ActFreeSpace 65536;
           ActPrint (MsgAdding 1 2 "a.exe" 77 20480 10); ActLock; ActUnlock;
           ActHash 51 g; ActLock; ActAddFunction (mkEntry 51 g 77 20480); ActUnlock] ∧
        entries (search_index (shared r)) =
          [mkEntry 51 g 77 20480; mkEntry 31 32 77 12288]) ∧
  ∀ sched,
    status (main ScenarioC.flags (ScenarioC.world g) sched) = Exit 0 →
    entries (search_index (shared (pool_run ScenarioC.flags (ScenarioC.world g) sched)))
      ≡ₚ [mkEntry 51 g 77 20480; mkEntry 31 32 77 12288].
Proof.
  cbv zeta. split; [done|]. split; [by vm_compute|]. split; [by vm_compute|].
  split.
  { eexists. split; [by vm_compute|]. split; [by vm_compute|]. split; by vm_compute. }
  intros sched Hexit. rewrite main_runs in Hexit by done. simpl in Hexit.
  destruct (drained (pool_run ScenarioC.flags (ScenarioC.world g) sched)) eqn:Hd; [|done].
  by apply scenario_C_entries.
Qed.

(** The read of [hashes[1]] finds 0, and the jobs run in turn. *)
Lemma short_fingerprint_is_indexed_witness :
  entries (search_index (shared (pool_run ScenarioC.flags (ScenarioC.world 0) (in_turn 2))))
    ≡ₚ [mkEntry 51 0 77 20480; mkEntry 31 32 77 12288].
Proof.
  apply (short_fingerprint_is_indexed 0). vm_compute. reflexivity.
Defined.

Lemma job_step_same c i f f' js sh :
  same_for_job f f' → job_step c i f js sh = job_step c i f' js sh.
Proof.
  intros (Ha & _ & Hb & a & b & [H0 H1] & [H0' H1']).
  destruct js; simpl; unfold subscript; rewrite <- ?Ha, <- ?Hb, ?H0, ?H1, ?H0', ?H1'; done.
Qed.

Lemma step_same c workers fs fs' i r :
  Forall2 same_for_job fs fs' →
  step c workers fs i r = step c workers fs' i r.
Proof.
  intros Hfs. unfold step.
  destruct (fs !! i) as [f|] eqn:Hf.
  - destruct (Forall2_lookup_l _ _ _ _ _ Hfs Hf) as (f' & -> & Hsame).
    destruct (jobs r !! i) as [js|]; [|done].
    by rewrite (job_step_same c i f f' js (shared r) Hsame).
  - apply lookup_ge_None in Hf. rewrite (Forall2_length _ _ _ Hfs) in Hf.
    apply lookup_ge_None in Hf. by rewrite Hf.
Qed.

(** C10: the job asks the fingerprinter for 128 values and builds the entry
    from [hashes[0]] and [hashes[1]] alone.  Two lists of functions whose
    fingerprints, for a request of 128, start with the same two values, and
    differ at most in what follows them or in what is returned for other
    requests, give the same run under every schedule: same index, same
    output.  In every run, the entry that a job adds is made of what the job
    read as [hashes[0]] and [hashes[1]], which are the first two values when
    the fingerprinter returned at least two, of the executable id and of the
    address of its function, and this entry is in the index.  And entries
    are built and stored: on an index with sufficient room and with a worker
    the pool drains when the jobs run in turn, and at the end of every run
    that drains the index holds, for each function above the minimum size,
    the entry made of the first two values of its fingerprint. *)
Theorem first_two_hashes_only c workers fs idx :
  (∀ fs' sched, Forall2 same_for_job fs fs' →
     exec c workers fs' sched (start (length fs') idx) =
     exec c workers fs sched (start (length fs) idx)) ∧
  (∀ sched i x,
     let r := exec c workers fs sched (start (length fs) idx) in
     (i, ActAddFunction x) ∈ trace r →
     ∃ f, fs !! i = Some f ∧
          x = mkEntry (subscript f (CalculateFunctionSimHash f 128) 0)
                      (subscript f (CalculateFunctionSimHash f 128) 1)
                      (file_id c) (addr f) ∧
          (∀ a b, CalculateFunctionSimHash f 128 !! 0%nat = Some a →
                  CalculateFunctionSimHash f 128 !! 1%nat = Some b →
                  x = mkEntry a b (file_id c) (addr f)) ∧
          x ∈ entries (search_index (shared r))) ∧
  (sufficient c fs idx → (0 < workers)%nat →
   drained (exec c workers fs (in_turn (length fs)) (start (length fs) idx)) = true ∧
   ∀ sched f a b,
     let r := exec c workers fs sched (start (length fs) idx) in
     drained r = true → f ∈ fs → passed_size c f →
     CalculateFunctionSimHash f 128 !! 0%nat = Some a →
     CalculateFunctionSimHash f 128 !! 1%nat = Some b →
     mkEntry a b (file_id c) (addr f) ∈ entries (search_index (shared r))).
Proof.
  split; [|split].
  - intros fs' sched Hfs. rewrite <- (Forall2_length _ _ _ Hfs).
    generalize (start (length fs) idx). intros r0.
    induction sched as [|k sched IH] using rev_ind; [done|].
    by rewrite !exec_snoc, IH, (step_same c workers fs fs' k _ Hfs).
  - intros sched i x r Hx.
    pose proof (sound_exec c workers fs idx sched) as Hs. fold r in Hs.
    pose proof Hs as (Hh & _ & (He & _) & _ & _ & _ & Htr).
    destruct (Htr i _ Hx) as [f Hf]. exists f. split; [done|].
    destruct (sound_state c fs idx r i f Hs Hf) as [js Hjs].
    pose proof Hx as Hx'%elem_of_events.
    destruct (history_written c f js _ x (Hh i f js Hf Hjs) Hx')
      as (_ & _ & (a & b & [-> ->] & ->) & _).
    split; [done|]. split.
    + intros a b H0 H1. unfold subscript. by rewrite H0, H1.
    + rewrite He. apply elem_of_app. right. unfold added.
      apply list_elem_of_omap. by exists (i, ActAddFunction
        (mkEntry (subscript f (CalculateFunctionSimHash f 128) 0)
                 (subscript f (CalculateFunctionSimHash f 128) 1) (file_id c) (addr f))).
  - intros Hsuf Hw. split; [by apply drain_from_start|].
    intros sched f a b r Hd Hin Hp H0 H1.
    rewrite (drained_entries c fs idx r); [|apply sound_exec|by apply ample_exec|done].
    apply elem_of_app. right. apply list_elem_of_In, in_concat.
    exists (entry_of c f). split.
    + apply in_map. unfold candidates. apply filter_In. split.
      * by apply list_elem_of_In.
      * unfold passed_size in Hp. apply negb_true_iff, Z.leb_gt. lia.
    + rewrite (entry_of_hashes c f a b) by done. by left.
Qed.

(** Four values instead of two for the large function, of which the index
    gets the first two. *)
Lemma first_two_hashes_only_witness :
  exec Scenario.capture 2 [Scenario.f_small; ScenarioD.f_long]
    (in_turn 2) (start 2 Scenario.roomy) =
  exec Scenario.capture 2 [Scenario.f_small; Scenario.f_big]
    (in_turn 2) (start 2 Scenario.roomy) ∧
  drained (exec Scenario.capture 2 [Scenario.f_small; ScenarioD.f_long]
             (in_turn 2) (start 2 Scenario.roomy)) = true ∧
  mkEntry 31 32 77 12288 ∈
    entries (search_index (shared
      (exec Scenario.capture 2 [Scenario.f_small; ScenarioD.f_long]
         (in_turn 2) (start 2 Scenario.roomy)))).
Proof.
  assert (sufficient Scenario.capture [Scenario.f_small; ScenarioD.f_long] Scenario.roomy)
    as Hsuf by (split; vm_compute; discriminate).
  split; [|split].
  - symmetry.
    apply (first_two_hashes_only Scenario.capture 2
             [Scenario.f_small; ScenarioD.f_long] Scenario.roomy).
    constructor; [|constructor; [|constructor]].
    + repeat split; by exists 11, 12.
    + repeat split; by exists 31, 32.
  - apply (first_two_hashes_only Scenario.capture 2
             [Scenario.f_small; ScenarioD.f_long] Scenario.roomy); [done|lia].
  - apply (first_two_hashes_only Scenario.capture 2
             [Scenario.f_small; ScenarioD.f_long] Scenario.roomy)
      with (sched := in_turn 2) (f := ScenarioD.f_long).
    + exact Hsuf.
    + lia.
    + vm_compute. reflexivity.
    + apply list_elem_of_further, list_elem_of_here.
    + unfold passed_size. simpl. lia.
    + reflexivity.
    + reflexivity.
Defined.

(** C8: with an empty input path main prints the diagnostic and returns -1
    without creating the pool; when the binary fails to load it exits with 1
    at once; when no function is found it prints the diagnostic and returns
    -1; otherwise main creates the pool, runs it, and exits with 0 if and
    only if the pool has drained: while a job has not returned,
    [pool.Stop(true)] has not, and main has no exit code.  With a worker and
    a fingerprinter that returns two values for every pushed function there
    is a schedule under which the pool drains and main exits with 0. *)
Theorem exit_codes flags w :
  (FLAGS_input flags = "" →
   ∀ sched, main flags w sched =
     {| status := Exit (-1); stdout := [MsgEmptyTarget]; pool := None |}) ∧
  (FLAGS_input flags ≠ "" →
   Load w (FLAGS_format flags) (FLAGS_input flags) = false →
   ∀ sched, status (main flags w sched) = Exit 1 ∧ pool (main flags w sched) = None) ∧
  (FLAGS_input flags ≠ "" →
   Load w (FLAGS_format flags) (FLAGS_input flags) = true →
   funcs w (FLAGS_format flags) (FLAGS_input flags) = [] →
   ∀ sched, main flags w sched =
     {| status := Exit (-1);
        stdout := [MsgExecutableId (GenerateExecutableID w (FLAGS_input flags));
                   MsgNoFunctions];
        pool := None |}) ∧
  (FLAGS_input flags ≠ "" →
   Load w (FLAGS_format flags) (FLAGS_input flags) = true →
   funcs w (FLAGS_format flags) (FLAGS_input flags) ≠ [] →
   (∀ sched,
      pool (main flags w sched) = Some (pool_run flags w sched) ∧
      (status (main flags w sched) = Exit 0 ↔ drained (pool_run flags w sched) = true) ∧
      (drained (pool_run flags w sched) = false → status (main flags w sched) = Waiting)) ∧
   (∀ sched r, pool (main flags w sched) = Some r → drained r = true →
      status (main flags w sched) = Exit 0) ∧
   ((0 < hardware_concurrency w)%nat → Forall two_hashes (pushed flags w) →
    ∃ sched, drained (pool_run flags w sched) = true ∧
             status (main flags w sched) = Exit 0)).
Proof.
  split; [|split; [|split]].
  - intros Hin sched. unfold main. by rewrite Hin.
  - intros Hin%String.eqb_neq Hload sched. unfold main. by rewrite Hin, Hload.
  - intros Hin%String.eqb_neq Hload Hfuncs sched. unfold main.
    by rewrite Hin, Hload, Hfuncs.
  - intros Hin Hload Hfuncs. split; [|split].
    + intros sched. rewrite main_runs by done. simpl.
      split; [done|]. destruct (drained (pool_run flags w sched)); by repeat split.
    + intros sched r. apply status_drained.
    + intros Hw _. exists (in_turn (length (pushed flags w))).
      rewrite main_runs by done. simpl. unfold pool_run.
      by rewrite drain_from_start.
Qed.

(** No input path, a binary that does not load, a binary without functions,
    and scenario A, run in turn and not run at all. *)
Lemma exit_codes_witness :
  (∀ sched, main ScenarioE.no_input ScenarioA.world sched =
     {| status := Exit (-1); stdout := [MsgEmptyTarget]; pool := None |}) ∧
  (∀ sched, status (main ScenarioA.flags ScenarioE.unloadable sched) = Exit 1 ∧
            pool (main ScenarioA.flags ScenarioE.unloadable sched) = None) ∧
  (∀ sched, main ScenarioA.flags ScenarioE.hollow sched =
     {| status := Exit (-1); stdout := [MsgExecutableId 77; MsgNoFunctions];
        pool := None |}) ∧
  (∃ sched, drained (pool_run ScenarioA.flags ScenarioA.world sched) = true ∧
            status (main ScenarioA.flags ScenarioA.world sched) = Exit 0) ∧
  status (main ScenarioA.flags ScenarioA.world []) = Waiting.
Proof.
  split; [|split; [|split; [|split]]].
  - apply (exit_codes ScenarioE.no_input ScenarioA.world). reflexivity.
  - apply (exit_codes ScenarioA.flags ScenarioE.unloadable); [discriminate|reflexivity].
  - apply (exit_codes ScenarioA.flags ScenarioE.hollow);
      [discriminate|reflexivity|reflexivity].
  - apply (exit_codes ScenarioA.flags ScenarioA.world);
      [discriminate|reflexivity|discriminate|simpl; lia|].
    repeat constructor; by eexists _, _.
  - apply (exit_codes ScenarioA.flags ScenarioA.world);
      [discriminate|reflexivity|discriminate|reflexivity].
Defined.

(** * Further properties of the pipeline *)

Lemma main_pool flags w sched r :
  pool (main flags w sched) = Some r →
  r = pool_run flags w sched ∧
  FLAGS_input flags ≠ "" ∧
  funcs w (FLAGS_format flags) (FLAGS_input flags) ≠ [] ∧
  status (main flags w sched) = (if drained r then Exit 0 else Waiting) ∧
  stdout (main flags w sched) =
    [MsgExecutableId (GenerateExecutableID w (FLAGS_input flags))] ++
    concat (map printed (trace r)).
Proof.
  unfold main, pool_run, pushed, captured.
  destruct (String.eqb (FLAGS_input flags) "") eqn:Hin; [done|].
  destruct (negb (Load w (FLAGS_format flags) (FLAGS_input flags))); [done|].
  destruct (funcs w (FLAGS_format flags) (FLAGS_input flags)) as [|f l] eqn:Hf; [done|].
  simpl. intros [= <-]. apply String.eqb_neq in Hin. done.
Qed.

Lemma exit_drained flags w sched r :
  pool (main flags w sched) = Some r → status (main flags w sched) = Exit 0 →
  drained r = true.
Proof.
  intros Hp Hs. destruct (main_pool flags w sched r Hp) as (_ & _ & _ & Hst & _).
  rewrite Hst in Hs. by destruct (drained r).
Qed.

(** X1: every entry that a run of main adds to the index is the entry of a
    function of the binary that the shared-block filter let through and that
    has more branching nodes than the minimum; it carries the executable id
    of the input, the address of that function and what the job read as
    [hashes[0]] and [hashes[1]], which are the first two values returned for
    the function whenever the fingerprinter returned two. *)
Theorem entries_come_from_binary flags w sched r x :
  pool (main flags w sched) = Some r →
  x ∈ added (trace r) →
  ∃ f, f ∈ funcs w (FLAGS_format flags) (FLAGS_input flags) ∧
       (FLAGS_no_shared_blocks flags && ContainsSharedBasicBlocks f) = false ∧
       FLAGS_minimum_function_size flags < GetNumberOfBranchingNodes f ∧
       reads f (entry_hash_A x) (entry_hash_B x) ∧
       (∀ a b, hashes_are f a b → entry_hash_A x = a ∧ entry_hash_B x = b) ∧
       entry_file_id x = GenerateExecutableID w (FLAGS_input flags) ∧
       entry_address x = addr f.
Proof.
  intros Hp Hx. destruct (main_pool flags w sched r Hp) as (-> & _).
  apply elem_of_added in Hx as [i Hx]. unfold pool_run in Hx.
  pose proof (sound_exec (captured flags w) (hardware_concurrency w) (pushed flags w)
                (index_file w (FLAGS_index flags)) sched) as Hs.
  set (r := exec _ _ _ _ _) in *. clearbody r.
  pose proof Hs as (Hh & _ & _ & _ & _ & _ & Ht).
  destruct (Ht i _ Hx) as [f Hf].
  destruct (sound_state _ _ _ r i f Hs Hf) as [js Hjs].
  apply elem_of_events in Hx.
  destruct (history_written _ f js _ x (Hh i f js Hf Hjs) Hx)
    as (Hsize & _ & (a & b & Hab & ->) & _).
  destruct (submitted_passed _ _ i f Hf) as [Hin Hsh].
  exists f. split; [done|]. split; [done|]. split; [done|]. split; [done|].
  split; [|done]. intros a' b' Hab'. exact (reads_hashes f a b a' b' Hab Hab').
Qed.

(** Scenario A: the one entry of the run comes from the large function. *)
Lemma entries_come_from_binary_witness :
  ∃ f, f ∈ [Scenario.f_small; Scenario.f_shared; Scenario.f_big] ∧
       (true && ContainsSharedBasicBlocks f) = false ∧
       5 < GetNumberOfBranchingNodes f ∧
       reads f 31 32 ∧
       (∀ a b, hashes_are f a b → 31 = a ∧ 32 = b) ∧
       77 = 77 ∧ 12288 = addr f.
Proof.
  apply (entries_come_from_binary ScenarioA.flags ScenarioA.world (in_turn 2)
           (pool_run ScenarioA.flags ScenarioA.world (in_turn 2))
           (mkEntry 31 32 77 12288)).
  - vm_compute. reflexivity.
  - vm_compute. apply list_elem_of_here.
Defined.

(** X2: when main exits with 0, the counter holds the number of functions
    for which a job was pushed, as an unsigned 64-bit value; that number is at
    most the number of functions of the binary, and equal to it when
    [no_shared_blocks] is not set. *)
Theorem count_at_exit flags w sched r :
  pool (main flags w sched) = Some r →
  status (main flags w sched) = Exit 0 →
  processed_functions (shared r) =
    Z.of_nat (length (pushed flags w)) mod uint64_max_succ ∧
  (length (pushed flags w) ≤
   length (funcs w (FLAGS_format flags) (FLAGS_input flags)))%nat ∧
  (FLAGS_no_shared_blocks flags = false →
   pushed flags w = funcs w (FLAGS_format flags) (FLAGS_input flags)).
Proof.
  intros Hp He. pose proof (exit_drained flags w sched r Hp He) as Hd.
  destruct (main_pool flags w sched r Hp) as (-> & _).
  split; [|split].
  - apply (drained_counter (captured flags w) (pushed flags w)
             (index_file w (FLAGS_index flags))); [apply sound_exec|done].
  - unfold pushed, submitted. apply filter_length_le.
  - intros Hn. unfold pushed, submitted. rewrite Hn. simpl.
    induction (funcs w (FLAGS_format flags) (FLAGS_input flags)) as [|f l IH];
      [done|]. simpl. by rewrite IH.
Qed.

(** Scenario A: two of the three functions are pushed. *)
Lemma count_at_exit_witness :
  processed_functions (shared (pool_run ScenarioA.flags ScenarioA.world (in_turn 2))) =
    Z.of_nat (length (pushed ScenarioA.flags ScenarioA.world)) mod uint64_max_succ ∧
  (length (pushed ScenarioA.flags ScenarioA.world) ≤ 3)%nat ∧
  (true = false →
   pushed ScenarioA.flags ScenarioA.world =
     [Scenario.f_small; Scenario.f_shared; Scenario.f_big]).
Proof.
  apply (count_at_exit ScenarioA.flags ScenarioA.world (in_turn 2)).
  - vm_compute. reflexivity.
  - vm_compute. reflexivity.
Defined.

(** ** The mutex *)

Section Mutex.
Context (c : Capture) (workers : nat) (fs : list Function).

Lemma owner_step i r :
  (∀ k, search_index_mutex (shared r) = Some k → (k < length (jobs r))%nat) →
  ∀ k, search_index_mutex (shared (step c workers fs i r)) = Some k →
       (k < length (jobs (step c workers fs i r)))%nat.
Proof.
  intros Ho k. rewrite step_length.
  destruct (step_cases c workers fs i r) as [->|(f&js&a&js'&sh'&Hf&Hjs&Hs&->)];
    [apply Ho|].
  simpl. apply job_step_mutex in Hs.
  destruct Hs as [[_ ->]|[(_ & _ & _ & ->)|(_ & _ & ->)]]; [apply Ho| |done].
  intros [= <-]. by eapply lookup_lt_Some.
Qed.

Lemma owner_exec sched n idx k :
  search_index_mutex (shared (exec c workers fs sched (start n idx))) = Some k →
  (k < length (jobs (exec c workers fs sched (start n idx))))%nat.
Proof.
  revert k.
  apply (exec_invariant c workers fs
           (λ r, ∀ k, search_index_mutex (shared r) = Some k →
                      (k < length (jobs r))%nat)); [done|].
  intros r i. apply owner_step.
Qed.

(** X3: at every point of every run, the jobs inside the sections guarded
    by [search_index_mutex] (the construction of the generator, and the
    insert with its handler) are at most one, that job is the holder of the
    mutex, a mutex that is held is held by such a job, and once the pool has
    drained the mutex is free. *)
Theorem mutex_discipline idx sched :
  let r := exec c workers fs sched (start (length fs) idx) in
  (∀ i j jsi jsj, jobs r !! i = Some jsi → jobs r !! j = Some jsj →
     holds jsi = true → holds jsj = true → i = j) ∧
  (∀ i, search_index_mutex (shared r) = Some i →
     ∃ js, jobs r !! i = Some js ∧ holds js = true) ∧
  (drained r = true → search_index_mutex (shared r) = None).
Proof.
  intros r.
  pose proof (mutex_held_exec c workers fs sched (length fs) idx) as Hm.
  pose proof (owner_exec sched (length fs) idx) as Ho. fold r in Hm, Ho.
  assert (Howner : ∀ i, search_index_mutex (shared r) = Some i →
            ∃ js, jobs r !! i = Some js ∧ holds js = true).
  { intros i Hi. destruct (lookup_lt_is_Some_2 _ _ (Ho i Hi)) as [js Hjs].
    exists js. split; [done|]. by apply (Hm i js Hjs). }
  split; [|split; [done|]].
  - intros i j jsi jsj Hi Hj Hhi Hhj.
    apply (Hm i jsi Hi) in Hhi. apply (Hm j jsj Hj) in Hhj. congruence.
  - intros Hd. destruct (search_index_mutex (shared r)) as [i|] eqn:Hi; [|done].
    destruct (Howner i eq_refl) as (js & Hjs & Hh).
    destruct (drained_done r i js Hd Hjs) as [o ->]. done.
Qed.

End Mutex.

(** ** Backpressure *)

(** X4: a job that read less free capacity than the 16 KiB margin at its
    check performs no action of extraction or insertion in that run: it is
    about to print the "index full" line, or has printed it and returned. *)
Theorem low_capacity_skips c workers fs idx sched i f v :
  fs !! i = Some f →
  let r := exec c workers fs sched (start (length fs) idx) in
  (i, ActFreeSpace v) ∈ trace r → v < Z.shiftl 1 14 →
  (∀ a, (i, a) ∈ trace r → extracting a = false) ∧
  (jobs r !! i = Some PrintFull ∨
   jobs r !! i = Some (Done IndexFull) ∧
   ∃ p, (i, ActPrint (MsgIndexFull p (number_of_functions c) (binary_path_string c)
                        (file_id c) (addr f))) ∈ trace r).
Proof.
  intros Hf r Hv Hlt.
  pose proof (sound_exec c workers fs idx sched) as Hs. fold r in Hs.
  destruct (sound_state c fs idx r i f Hs Hf) as [js Hjs].
  destruct Hs as (Hh & _). pose proof (Hh i f js Hf Hjs) as Hho.
  setoid_rewrite <- elem_of_events. apply elem_of_events in Hv.
  rewrite Hjs. clear Hh Hjs. generalize dependent (events i (trace r)).
  intros h Hv Hho.
  destruct js as [| | | | | | | | |y z|y z|o|o]; try destruct o; simpl in Hho;
    unfold h_hashed, h_checked, h_sized in Hho; simpl in Hho; open_history;
    try (exfalso; set_unfold; naive_solver lia).
  - split; [|by left]. intros a Ha. set_unfold. naive_solver.
  - split; [intros a Ha; set_unfold; naive_solver|]. right. split; [done|].
    eexists. repeat first [apply list_elem_of_here | apply list_elem_of_further].
Qed.

(** Scenario B: the large function, checked against 8 KiB. *)
Lemma low_capacity_skips_witness :
  (∀ a, (1%nat, a) ∈ trace ScenarioB.run → extracting a = false) ∧
  (jobs ScenarioB.run !! 1%nat = Some PrintFull ∨
   jobs ScenarioB.run !! 1%nat = Some (Done IndexFull) ∧
   ∃ p, (1%nat, ActPrint (MsgIndexFull p 3 "a.exe" 77 12288)) ∈ trace ScenarioB.run).
Proof.
  apply (low_capacity_skips Scenario.capture 2 [Scenario.f_small; Scenario.f_big]
           ScenarioB.prefilled (in_turn 2) 1 Scenario.f_big 8192).
  - reflexivity.
  - apply elem_of_events.
    set (h := events 1 _). vm_compute in h. subst h.
    repeat first [apply list_elem_of_here | apply list_elem_of_further].
  - by vm_compute.
Defined.

(** ** Work and progress *)

Lemma gather_length_bound {C} (g : Function → JobState → list C) (k : nat) fs l :
  (∀ f js, (length (g f js) ≤ k)%nat) →
  (length (gather g fs l) ≤ k * length fs)%nat.
Proof.
  intros Hg. unfold gather. revert l.
  induction fs as [|f fs IH]; intros l; [simpl; lia|].
  destruct l as [|js l]; [simpl; lia|]. simpl. rewrite length_app.
  specialize (IH l). specialize (Hg f js). lia.
Qed.

Lemma job_step_rank c i f js sh a js' sh' :
  job_step c i f js sh = Some (a, js', sh') → (rank js < rank js' ≤ 11)%nat.
Proof.
  intros Hs. destruct js; simpl in Hs; unfold AddFunction in Hs;
    repeat case_match; simplify_eq; simpl; lia.
Qed.

Lemma forallb_false {A} (p : A → bool) (l : list A) :
  forallb p l = false → ∃ i x, l !! i = Some x ∧ p x = false.
Proof.
  induction l as [|y l IH]; [done|]. simpl.
  destruct (p y) eqn:Hy; simpl.
  - intros (i & x & Hi & Hx)%IH. by exists (S i), x.
  - intros _. by exists 0%nat, y.
Qed.

Lemma busy_cases l :
  (busy l = 0%nat ∧ Forall (λ js, on_worker js = false) l) ∨
  ∃ i js, l !! i = Some js ∧ on_worker js = true.
Proof.
  unfold busy. induction l as [|y l IH]; [left; by split|]. simpl.
  destruct (on_worker y) eqn:Hy.
  - right. by exists 0%nat, y.
  - destruct IH as [[H0 Hall]|(i & js & Hi & Hjs)].
    + left. split; [done|]. by constructor.
    + right. by exists (S i), js.
Qed.

Section Progress.
Context (c : Capture) (workers : nat) (fs : list Function).

Lemma advance_step i r :
  (length (trace r) ≤ advance fs (jobs r))%nat →
  (length (trace (step c workers fs i r)) ≤ advance fs (jobs (step c workers fs i r)))%nat.
Proof.
  intros Hle.
  destruct (step_cases c workers fs i r) as [->|(f&js&a&js'&sh'&Hf&Hjs&Hs&->)]; [done|].
  unfold advance in *. simpl.
  destruct (gather_update (λ _ js, replicate (rank js) ()) fs (jobs r) i f js js' Hf Hjs)
    as (rest & H1 & H2).
  rewrite H2, !length_app, length_replicate. simpl.
  rewrite H1, length_app, length_replicate in Hle.
  apply job_step_rank in Hs. lia.
Qed.

(** X6: a job performs at most eleven actions, so whatever the schedule, a
    run of the pool has at most eleven actions per pushed function: no
    schedule keeps the pool working for ever. *)
Theorem work_is_bounded idx sched :
  (length (trace (exec c workers fs sched (start (length fs) idx)))
   ≤ 11 * length fs)%nat.
Proof.
  transitivity (advance fs (jobs (exec c workers fs sched (start (length fs) idx)))).
  - apply (exec_invariant c workers fs
             (λ r, (length (trace r) ≤ advance fs (jobs r))%nat)).
    + simpl. lia.
    + intros r i. apply advance_step.
  - apply gather_length_bound. intros f js. rewrite length_replicate.
    destruct js; simpl; lia.
Qed.

Lemma todo_step i r f js a js' sh' :
  fs !! i = Some f → jobs r !! i = Some js →
  job_step c i f js (shared r) = Some (a, js', sh') →
  (todo fs (<[i := js']> (jobs r)) < todo fs (jobs r))%nat.
Proof.
  intros Hf Hjs Hs. unfold todo.
  destruct (gather_update (λ _ js, replicate (11 - rank js) ()) fs (jobs r) i f js js'
              Hf Hjs) as (rest & H1 & H2).
  rewrite H1, H2, !length_app, !length_replicate.
  apply job_step_rank in Hs. lia.
Qed.

(** A job that a worker has taken and that has not returned can move when
    the mutex is free, and also when it holds it. *)
Lemma movable i f js sh :
  on_worker js = true →
  search_index_mutex sh = None ∨ holds js = true →
  ∃ a js' sh', job_step c i f js sh = Some (a, js', sh').
Proof.
  intros Hw Hm.
  destruct js; simpl in *; try done; unfold AddFunction;
    destruct Hm as [Hm|Hm]; try done; rewrite ?Hm;
    repeat case_match; eauto.
Qed.

Lemma live_step i r : live fs r → live fs (step c workers fs i r).
Proof.
  intros (Hl & Hm & Ho).
  split; [by rewrite step_length|]. split; [by apply mutex_held_step|].
  by apply owner_step.
Qed.

(** As long as the pool has not drained, some job can move. *)
Lemma progress r :
  (0 < workers)%nat → live fs r → drained r = false →
  ∃ i f js a js' sh',
    fs !! i = Some f ∧ jobs r !! i = Some js ∧
    job_step c i f js (shared r) = Some (a, js', sh') ∧
    step c workers fs i r =
      {| jobs := <[i := js']> (jobs r); shared := sh'; trace := trace r ++ [(i, a)] |}.
Proof.
  intros Hw (Hl & Hm & Ho) Hd.
  assert (Hmove : ∀ i js, jobs r !! i = Some js → on_worker js = true →
            search_index_mutex (shared r) = None ∨ holds js = true →
            ∃ i f js a js' sh',
              fs !! i = Some f ∧ jobs r !! i = Some js ∧
              job_step c i f js (shared r) = Some (a, js', sh') ∧
              step c workers fs i r =
                {| jobs := <[i := js']> (jobs r); shared := sh';
                   trace := trace r ++ [(i, a)] |}).
  { intros i js Hjs Hon Hfree.
    destruct (lookup_lt_is_Some_2 fs i) as [f Hf];
      [rewrite <- Hl; by eapply lookup_lt_Some|].
    destruct (movable i f js (shared r) Hon) as (a & js' & sh' & Hs); [done|].
    exists i, f, js, a, js', sh'. repeat split; try done.
    apply (step_moves c workers fs i r f js); try done. by destruct js. }
  destruct (search_index_mutex (shared r)) as [k|] eqn:Hk.
  - destruct (lookup_lt_is_Some_2 _ _ (Ho k eq_refl)) as [js Hjs].
    assert (holds js = true) as Hh by by apply (Hm k js Hjs).
    apply (Hmove k js Hjs); [by destruct js|by right].
  - destruct (busy_cases (jobs r)) as [[Hb Hidle]|(i & js & Hjs & Hon)].
    + apply forallb_false in Hd as (i & js & Hjs & Hnd).
      pose proof (Forall_lookup_1 _ _ _ _ Hidle Hjs) as Hoff.
      assert (js = Queued) as -> by (destruct js; done).
      destruct (lookup_lt_is_Some_2 fs i) as [f Hf];
        [rewrite <- Hl; by eapply lookup_lt_Some|].
      exists i, f, Queued, ActStart, Started, (shared r). repeat split; try done.
      apply (step_starts c workers fs i r f); try done. lia.
    + apply (Hmove i js Hjs Hon). by left.
Qed.

(** From any state that a run can be in, some continuation of the schedule
    drains the pool. *)
Lemma can_drain n : ∀ r,
  (0 < workers)%nat → live fs r → (todo fs (jobs r) ≤ n)%nat →
  ∃ more, drained (exec c workers fs more r) = true.
Proof.
  induction n as [|n IH]; intros r Hw Hlive Hn;
    (destruct (drained r) eqn:Hd; [by exists []|]);
    destruct (progress r Hw Hlive Hd) as (i & f & js & a & js' & sh' & Hf & Hjs & Hs & Hstep);
    pose proof (todo_step i r f js a js' sh' Hf Hjs Hs) as Hlt.
  - lia.
  - destruct (IH (step c workers fs i r)) as [more Hmore]; try done.
    + by apply live_step.
    + rewrite Hstep. simpl. lia.
    + exists (i :: more). by rewrite exec_cons.
Qed.

Lemma live_start idx : live fs (start (length fs) idx).
Proof.
  split; [apply length_replicate|]. split; [apply mutex_held_start|done].
Qed.

End Progress.

(** X5: the pool never gets stuck.  With at least one worker, and a
    fingerprinter that has two values for every function larger than the
    minimum, whatever the workers have done so far there is a way for them to
    go on after which every job has returned and main exits with 0: neither
    the lock around the generator nor the lock around the insert can block
    the pool for good. *)
Theorem pool_never_stuck flags w sched :
  FLAGS_input flags ≠ "" →
  Load w (FLAGS_format flags) (FLAGS_input flags) = true →
  funcs w (FLAGS_format flags) (FLAGS_input flags) ≠ [] →
  (0 < hardware_concurrency w)%nat →
  Forall (λ f, GetNumberOfBranchingNodes f ≤ FLAGS_minimum_function_size flags ∨
               two_hashes f) (pushed flags w) →
  ∃ more, status (main flags w (sched ++ more)) = Exit 0.
Proof.
  intros Hin Hload Hfuncs Hw _.
  set (c := captured flags w). set (fs := pushed flags w).
  set (idx := index_file w (FLAGS_index flags)).
  set (r := exec c (hardware_concurrency w) fs sched (start (length fs) idx)).
  destruct (can_drain c (hardware_concurrency w) fs (todo fs (jobs r)) r)
    as [more Hmore]; try done.
  - apply (exec_invariant c (hardware_concurrency w) fs (live fs)).
    + apply live_start.
    + intros r' i. apply live_step.
  - exists more. rewrite main_runs by done. simpl.
    unfold pool_run. rewrite exec_app. fold c fs idx r. by rewrite Hmore.
Qed.

(** Scenario A, after the two jobs have each made three steps. *)
Lemma pool_never_stuck_witness :
  ∃ more, status (main ScenarioA.flags ScenarioA.world
                    ([0; 1; 0; 1; 0; 1]%nat ++ more)) = Exit 0.
Proof.
  apply (pool_never_stuck ScenarioA.flags ScenarioA.world [0; 1; 0; 1; 0; 1]%nat).
  - discriminate.
  - reflexivity.
  - discriminate.
  - simpl. lia.
  - repeat (apply Forall_cons; split; [right; by eexists _, _|]). constructor.
Defined.

(** ** Progress lines *)

Lemma job_step_print c i f js sh m js' sh' :
  job_step c i f js sh = Some (ActPrint m, js', sh') →
  shown m = Some (processed_functions sh) ∧ counted js = true.
Proof.
  intros Hs. destruct js; simpl in Hs; unfold AddFunction in Hs;
    repeat case_match; by simplify_eq.
Qed.

Lemma figures_exec c workers fs idx sched i m p :
  Z.of_nat (length fs) < uint64_max_succ →
  (i, ActPrint m) ∈ trace (exec c workers fs sched (start (length fs) idx)) →
  shown m = Some p → 1 ≤ p ≤ Z.of_nat (length fs).
Proof.
  intros Hsmall. revert i m p.
  apply (exec_invariant c workers fs
           (λ r, counter_counts fs r ∧
                 ∀ i m p, (i, ActPrint m) ∈ trace r → shown m = Some p →
                          1 ≤ p ≤ Z.of_nat (length fs))).
  - split; [|intros i m p Hin; by apply elem_of_nil in Hin].
    unfold counter_counts, count_counted. simpl. by rewrite gather_replicate_nil.
  - intros r k [Hc Hfig]. split; [by apply counter_counts_step|].
    destruct (step_cases c workers fs k r) as [->|(f&js&a&js'&sh'&Hf&Hjs&Hs&->)];
      [done|].
    simpl. intros i m p Hin Hp. apply elem_of_app in Hin as [Hin|Hin];
      [by eapply Hfig|].
    apply list_elem_of_singleton in Hin. injection Hin as Hi Ha. subst i a.
    apply job_step_print in Hs as [Hshown Hcounted].
    rewrite Hshown in Hp. simplify_eq.
    unfold counter_counts, count_counted in Hc. rewrite Hc.
    destruct (gather_update (λ _ js, unit_if (counted js)) fs (jobs r) k f js js Hf Hjs)
      as (rest & H1 & _).
    assert (Hb : (length (gather (λ _ js, unit_if (counted js)) fs (jobs r))
                  ≤ length fs)%nat).
    { etransitivity; [apply (gather_length_bound _ 1)|lia].
      intros f0 js0. destruct (counted js0); simpl; lia. }
    rewrite H1, length_app, Hcounted in Hb |- *. simpl in Hb |- *.
    rewrite Z.mod_small; lia.
Qed.

(** X7: every progress line that main prints shows a figure of processed
    functions between 1 and the number of functions for which a job was
    pushed, hence at most the total that the line shows next to it (the number
    of functions of the binary fits 64 bits). *)
Theorem progress_figures flags w sched m p :
  Z.of_nat (length (funcs w (FLAGS_format flags) (FLAGS_input flags)))
    < uint64_max_succ →
  m ∈ stdout (main flags w sched) → shown m = Some p →
  1 ≤ p ≤ Z.of_nat (length (pushed flags w)) ∧
  Z.of_nat (length (pushed flags w)) ≤
    Z.of_nat (length (funcs w (FLAGS_format flags) (FLAGS_input flags))).
Proof.
  intros Hsmall Hm Hp.
  assert (Hle : (length (pushed flags w) ≤
                 length (funcs w (FLAGS_format flags) (FLAGS_input flags)))%nat)
    by apply filter_length_le.
  split; [|lia].
  destruct (pool (main flags w sched)) as [r|] eqn:Hpool.
  - destruct (main_pool flags w sched r Hpool) as (-> & _ & _ & _ & Hout).
    rewrite Hout in Hm. apply elem_of_app in Hm as [Hm|Hm].
    + apply list_elem_of_singleton in Hm. by subst m.
    + apply list_elem_of_In, in_concat in Hm as (l & Hl & Hml).
      apply in_map_iff in Hl as ([i a] & <- & Hin).
      apply list_elem_of_In in Hin. unfold printed in Hml. simpl in Hml.
      destruct a; simpl in Hml; try done; destruct Hml as [<-|[]]; [|done].
      eapply (figures_exec (captured flags w) (hardware_concurrency w)
                (pushed flags w)); [lia|exact Hin|done].
  - unfold main in *.
    destruct (String.eqb (FLAGS_input flags) ""); simpl in *.
    { apply list_elem_of_singleton in Hm. by subst m. }
    destruct (negb (Load w (FLAGS_format flags) (FLAGS_input flags))); simpl in *.
    { apply list_elem_of_singleton in Hm. by subst m. }
    destruct (length (funcs w (FLAGS_format flags) (FLAGS_input flags)) =? 0)%nat;
      simpl in *; [|done].
    set_unfold. destruct Hm as [->|[->|[]]]; done.
Qed.

(** Scenario A: the line of the small function, printed by the second job
    to start, shows 2 of 3. *)
Lemma progress_figures_witness :
  1 ≤ 2 ≤ Z.of_nat (length (pushed ScenarioA.flags ScenarioA.world)) ∧
  Z.of_nat (length (pushed ScenarioA.flags ScenarioA.world)) ≤ Z.of_nat 3.
Proof.
  apply (progress_figures ScenarioA.flags ScenarioA.world
           (concat (replicate 11 [1; 0]%nat)) (MsgSkipping 2 3 "a.exe" 77 4096 2) 2).
  - by vm_compute.
  - set (out := stdout _). vm_compute in out. subst out.
    repeat first [apply list_elem_of_here | apply list_elem_of_further].
  - reflexivity.
Defined.

(** ** The margin and the workers *)



Section Margin.
Context (c : Capture) (workers : nat) (fs : list Function).






End Margin.



(** ** The index only fills up *)

Lemma job_step_free_space c i f js sh v js' sh' :
  job_step c i f js sh = Some (ActFreeSpace v, js', sh') →
  v = free_space (search_index sh).
Proof.
  intros Hs. destruct js; simpl in Hs; unfold AddFunction in Hs;
    repeat case_match; by simplify_eq.
Qed.

(** Along a run the entries are only appended to, the free space only
    shrinks, and every capacity read sees at most what was free before. *)
Lemma exec_fills c workers fs more : ∀ r,
  0 ≤ entry_bytes (search_index (shared r)) →
  ∃ suffix,
    trace (exec c workers fs more r) = trace r ++ suffix ∧
    entries (search_index (shared (exec c workers fs more r))) =
      entries (search_index (shared r)) ++ added suffix ∧
    free_space (search_index (shared (exec c workers fs more r))) =
      free_space (search_index (shared r)) -
      entry_bytes (search_index (shared r)) * Z.of_nat (length (added suffix)) ∧
    entry_bytes (search_index (shared (exec c workers fs more r))) =
      entry_bytes (search_index (shared r)) ∧
    ∀ i v, (i, ActFreeSpace v) ∈ suffix → v ≤ free_space (search_index (shared r)).
Proof.
  intros r Hb. induction more as [|k more IH] using rev_ind.
  - exists []. simpl. rewrite !app_nil_r. repeat split; try lia.
    intros i v Hin. by apply elem_of_nil in Hin.
  - destruct IH as (suffix & Ht & He & Hf & Hby & Hv). rewrite exec_snoc.
    destruct (step_cases c workers fs k (exec c workers fs more r))
      as [->|(f&js&a&js'&sh'&Hfk&Hjs&Hs&->)]; [by exists suffix|].
    exists (suffix ++ [(k, a)]). simpl. rewrite Ht, added_snoc, app_assoc.
    split; [done|].
    assert (Hv' : ∀ i v, (i, ActFreeSpace v) ∈ suffix ++ [(k, a)] →
                         v ≤ free_space (search_index (shared r))).
    { intros i v [Hin|Hin%list_elem_of_singleton]%elem_of_app; [by apply (Hv i)|].
      injection Hin as -> Ha. subst a. apply job_step_free_space in Hs.
      rewrite Hs, Hf. nia. }
    pose proof (job_step_index c k f js _ a js' sh' Hs) as Hidx.
    destruct a; try (rewrite Hidx, He, Hf, Hby, app_nil_r; done).
    destruct Hidx as (H1 & H2 & H3 & _). rewrite H1, H2, H3, He, Hf, Hby, length_app.
    simpl. repeat split; try done; [by rewrite app_assoc|lia].
Qed.

(** X9: backpressure is monotonic.  Whatever the workers do after a point
    of a run, the entries that the index held at that point are still there
    in the same order, the free capacity has not grown, and if it was below
    the 16 KiB margin then every capacity check made afterwards reads less
    than the margin. *)
Theorem index_only_fills c workers fs idx sched more :
  0 ≤ entry_bytes idx →
  let r := exec c workers fs sched (start (length fs) idx) in
  let r' := exec c workers fs (sched ++ more) (start (length fs) idx) in
  (∃ new, entries (search_index (shared r')) = entries (search_index (shared r)) ++ new) ∧
  free_space (search_index (shared r')) ≤ free_space (search_index (shared r)) ∧
  (free_space (search_index (shared r)) < Z.shiftl 1 14 →
   ∀ i v, (i, ActFreeSpace v) ∈ trace r' →
          (i, ActFreeSpace v) ∈ trace r ∨ v < Z.shiftl 1 14).
Proof.
  intros Hb r r'. subst r'. rewrite exec_app. fold r.
  destruct (index_accounts_exec c workers fs sched (length fs) idx) as (_ & _ & Hby).
  fold r in Hby.
  destruct (exec_fills c workers fs more r) as (suffix & Ht & He & Hf & _ & Hv);
    [by rewrite Hby|].
  split; [by eexists|]. split; [rewrite Hf, Hby; nia|].
  intros Hlow i v. rewrite Ht. intros [Hin|Hin]%elem_of_app; [by left|right].
  specialize (Hv i v Hin). lia.
Qed.

(** The race, seen after the first forty actions and at its end. *)
Lemma index_only_fills_witness :
  let r := exec Scenario.capture5 8 Scenario.five (take 40 Scenario.racing)
             (start 5 Scenario.tight) in
  let r' := exec Scenario.capture5 8 Scenario.five
              (take 40 Scenario.racing ++ drop 40 Scenario.racing)
              (start 5 Scenario.tight) in
  (∃ new, entries (search_index (shared r')) = entries (search_index (shared r)) ++ new) ∧
  free_space (search_index (shared r')) ≤ free_space (search_index (shared r)) ∧
  (free_space (search_index (shared r)) < Z.shiftl 1 14 →
   ∀ i v, (i, ActFreeSpace v) ∈ trace r' →
          (i, ActFreeSpace v) ∈ trace r ∨ v < Z.shiftl 1 14).
Proof.
  apply (index_only_fills Scenario.capture5 8 Scenario.five Scenario.tight
           (take 40 Scenario.racing) (drop 40 Scenario.racing)).
  by vm_compute.
Defined.

(** ** Small functions *)

(** X10: the job of a function with no more branching nodes than the
    minimum counts the function, prints the line that it skips it, and does
    nothing else: it never reads the free capacity of the index, takes the
    mutex, or computes a hash. *)
Theorem small_function_only_counted c workers fs idx sched i f a :
  fs !! i = Some f →
  GetNumberOfBranchingNodes f ≤ minimum_size c →
  (i, a) ∈ trace (exec c workers fs sched (start (length fs) idx)) →
  a = ActStart ∨ a = ActIncrement ∨
  ∃ p, a = ActPrint (MsgSkipping p (number_of_functions c) (binary_path_string c)
                       (file_id c) (addr f) (GetNumberOfBranchingNodes f)).
Proof.
  intros Hf Hle Hin.
  pose proof (sound_exec c workers fs idx sched) as Hs.
  destruct (sound_state c fs idx _ i f Hs Hf) as [js Hjs].
  destruct Hs as (Hh & _). pose proof (Hh i f js Hf Hjs) as Hho.
  apply elem_of_events in Hin. clear Hh Hjs.
  generalize dependent (events i (trace (exec c workers fs sched (start (length fs) idx)))).
  intros h Hin Hho.
  destruct js as [| | | | | | | | |y z|y z|o|o]; try destruct o; simpl in Hho;
    unfold passed_size in Hho; open_history; try lia;
    repeat (apply elem_of_cons in Hin as [->|Hin]);
    try (by apply elem_of_nil in Hin); eauto.
Qed.

(** Scenario A: the line printed for the small function. *)
Lemma small_function_only_counted_witness :
  ActPrint (MsgSkipping 1 3 "a.exe" 77 4096 2) = ActStart ∨
  ActPrint (MsgSkipping 1 3 "a.exe" 77 4096 2) = ActIncrement ∨
  ∃ p, ActPrint (MsgSkipping 1 3 "a.exe" 77 4096 2) =
       ActPrint (MsgSkipping p 3 "a.exe" 77 4096 2).
Proof.
  apply (small_function_only_counted Scenario.capture 2
           [Scenario.f_small; Scenario.f_big] Scenario.roomy (in_turn 2)
           0 Scenario.f_small).
  - reflexivity.
  - by vm_compute.
  - apply elem_of_events. set (h := events 0 _). vm_compute in h. subst h.
    repeat first [apply list_elem_of_here | apply list_elem_of_further].
Defined.

(** ** Two runs on the same binary *)

Lemma same_binary_entries c fs fs' :
  Forall2 same_binary fs fs' →
  Forall (λ f, GetNumberOfBranchingNodes f ≤ minimum_size c ∨ two_hashes f) fs →
  concat (map (entry_of c) (candidates c fs)) =
  concat (map (entry_of c) (candidates c fs')).
Proof.
  unfold candidates. induction 1 as [|f f' fs fs' (Ha & _ & Hb & Hh) _ IH]; [done|].
  intros [Hf Hfs]%Forall_cons. cbn [List.filter]. rewrite <- Hb.
  destruct (GetNumberOfBranchingNodes f <=? minimum_size c) eqn:Hle;
    cbn [negb]; [by apply IH|].
  cbn [map concat]. rewrite IH by done. f_equal. apply Z.leb_gt in Hle.
  destruct Hf as [Hf|(a & b & H0 & H1)]; [lia|].
  rewrite (entry_of_hashes c f a b) by done.
  rewrite (entry_of_hashes c f' a b) by (split; by rewrite <- Hh).
  by rewrite Ha.
Qed.

(** X11: runs agree when the fingerprinter keeps to two values.  When it
    returns two values for every function larger than the minimum size, two
    runs on the same binary and configuration, each on its own empty index
    with sufficient room and with at least one worker, can both drain their
    pools, and whatever the schedules and the numbers of workers, two runs
    that have drained end with the same entries up to order, hence with the
    same set of entries. *)
Theorem runs_agree c workers1 workers2 fs fs' idx1 idx2 :
  Forall2 same_binary fs fs' →
  Forall (λ f, GetNumberOfBranchingNodes f ≤ minimum_size c ∨ two_hashes f) fs →
  entries idx1 = [] → entries idx2 = [] →
  sufficient c fs idx1 → sufficient c fs' idx2 →
  (0 < workers1)%nat → (0 < workers2)%nat →
  (drained (exec c workers1 fs (in_turn (length fs)) (start (length fs) idx1)) = true ∧
   drained (exec c workers2 fs' (in_turn (length fs')) (start (length fs') idx2)) = true) ∧
  ∀ sched1 sched2,
    let r1 := exec c workers1 fs sched1 (start (length fs) idx1) in
    let r2 := exec c workers2 fs' sched2 (start (length fs') idx2) in
    drained r1 = true → drained r2 = true →
    entries (search_index (shared r1)) ≡ₚ entries (search_index (shared r2)) ∧
    same_entries r1 r2.
Proof.
  intros Hsame Htwo He1 He2 Hs1 Hs2 Hw1 Hw2.
  split; [split; by apply drain_from_start|].
  intros sched1 sched2 r1 r2 Hd1 Hd2.
  assert (entries (search_index (shared r1)) ≡ₚ entries (search_index (shared r2))) as H.
  { rewrite (drained_entries c fs idx1 r1), (drained_entries c fs' idx2 r2);
      try done; try apply sound_exec; try by apply ample_exec.
    by rewrite He1, He2, (same_binary_entries c fs fs'). }
  split; [done|]. intros x. by rewrite H.
Qed.

(** One worker running the jobs in turn against two workers alternating, on
    two indexes of different sizes. *)
Lemma runs_agree_witness :
  let r1 := exec Scenario.capture 1 [Scenario.f_small; Scenario.f_big]
              (in_turn 2) (start 2 Scenario.roomy) in
  let r2 := exec Scenario.capture 2 [Scenario.f_small; Scenario.f_big]
              Scenario.alternate (start 2 Scenario.roomier) in
  entries (search_index (shared r1)) ≡ₚ entries (search_index (shared r2)) ∧
  same_entries r1 r2.
Proof.
  apply (runs_agree Scenario.capture 1 2 [Scenario.f_small; Scenario.f_big]
           [Scenario.f_small; Scenario.f_big] Scenario.roomy Scenario.roomier).
  - repeat constructor.
  - apply Forall_cons. split; [left; by vm_compute|].
    apply Forall_cons. split; [right; by exists 31, 32|constructor].
  - reflexivity.
  - reflexivity.
  - split; vm_compute; discriminate.
  - split; vm_compute; discriminate.
  - lia.
  - lia.
  - vm_compute. reflexivity.
  - vm_compute. reflexivity.
Defined.
